(** * eggs-next-setup: the dependency-compatibility resolver

    A shallow embedding of [getPeerDependencies], [getCompatibleVersion] and
    [resolveDependencies] of [src/eggs-next-setup/index.ts], with the two
    effects the resolver has (HTTP reads of the package registry and console
    warnings) kept as the nodes of a program tree, and JavaScript exceptions
    as an abrupt completion that [try_catch] intercepts. *)

From Stdlib Require Import QArith Ascii String.
From stdpp Require Import base decidable option list sorting strings pretty.

Open Scope string_scope.
Open Scope list_scope.

(** ** JavaScript values of a registry document *)

(** What [response.data] can be: a parsed JSON document, or a string when the
    body is not JSON.  A string is a sequence of code units, one [ascii] per
    unit.  [JObj] carries the own enumerable properties of the object in
    their enumeration order (a parsed document has distinct keys; a lookup
    takes the first binding).  A JSON number is a finite double, so a
    rational; both signed zeros are the rational 0. *)
#[local] Unset Elimination Schemes.
Inductive JsVal : Type :=
| JUndefined
| JNull
| JBool (b : bool)
| JNum (q : Q)
| JStr (s : string)
| JArr (elems : list JsVal)
| JObj (props : list (string * JsVal)).
#[local] Set Elimination Schemes.

(** [typeof v] *)
Definition typeof (v : JsVal) : string :=
  match v with
  | JUndefined => "undefined"
  | JNull => "object"
  | JBool _ => "boolean"
  | JNum _ => "number"
  | JStr _ => "string"
  | JArr _ | JObj _ => "object"
  end.

(** ToBoolean *)
Definition truthy (v : JsVal) : bool :=
  match v with
  | JUndefined | JNull => false
  | JBool b => b
  | JNum q => negb (Qeq_bool q 0)
  | JStr s => negb (String.eqb s "")
  | JArr _ | JObj _ => true
  end.

(** [a || b] *)
Definition js_or (a b : JsVal) : JsVal := if truthy a then a else b.

(** [v === s] for a string [s] *)
Definition strict_eq_string (v : JsVal) (s : string) : bool :=
  match v with
  | JStr s' => String.eqb s' s
  | _ => false
  end.

(** [v !== null] *)
Definition not_null (v : JsVal) : bool :=
  match v with
  | JNull => false
  | _ => true
  end.

Definition nullish (v : JsVal) : bool :=
  match v with
  | JUndefined | JNull => true
  | _ => false
  end.

Fixpoint code_units (s : string) : list ascii :=
  match s with
  | EmptyString => []
  | String c s' => c :: code_units s'
  end.

(** The own enumerable string-keyed properties of a value, in enumeration
    order: the elements of an array and the code units of a string under
    their decimal indices, the properties of an object; a boolean or a
    number has none. *)
Definition own_props (v : JsVal) : list (string * JsVal) :=
  match v with
  | JObj props => props
  | JArr elems => imap (fun i x => (pretty i, x)) elems
  | JStr s => imap (fun i c => (pretty i, JStr (String c ""))) (code_units s)
  | _ => []
  end.

Fixpoint assoc {A : Type} (k : string) (l : list (string * A)) : option A :=
  match l with
  | [] => None
  | (k', x) :: l' => if decide (k' = k) then Some x else assoc k l'
  end.

(** The value read by [v[k]] on a value that is neither [null] nor
    [undefined].  [length] is the one own property of arrays and strings
    that is not enumerable.  Properties inherited from the built-in
    prototypes are functions and are outside this model; the resolver reads
    only [versions], [peerDependencies], [@angular/core] and keys taken from
    [Object.keys], none of which is inherited. *)
Definition read_prop (v : JsVal) (k : string) : JsVal :=
  match v with
  | JArr elems =>
      if decide (k = "length") then JNum (inject_Z (Z.of_nat (length elems)))
      else default JUndefined (assoc k (own_props v))
  | JStr s =>
      if decide (k = "length") then JNum (inject_Z (Z.of_nat (String.length s)))
      else default JUndefined (assoc k (own_props v))
  | _ => default JUndefined (assoc k (own_props v))
  end.

(** ** Effects: registry reads, console warnings, exceptions *)

(** How [await axios.get(url)] settles: the promise rejects (network error,
    error status), or resolves with [response.data].  A body that axios
    cannot parse as JSON does not reject: the promise resolves with the body
    as the string that was received. *)
Inductive FetchResult : Type :=
| FetchFailed
| FetchOk (data : JsVal).

Inductive JsError : Type :=
| NetworkError
| TypeError.

Inductive Prog (A : Type) : Type :=
| Ret (a : A)
| Throw (e : JsError)
| HttpGet (url : string) (k : FetchResult -> Prog A)
| ConsoleWarn (msg : string) (k : Prog A).

Arguments Ret {A} a.
Arguments Throw {A} e.
Arguments HttpGet {A} url k.
Arguments ConsoleWarn {A} msg k.

Fixpoint bind {A B : Type} (p : Prog A) (f : A -> Prog B) : Prog B :=
  match p with
  | Ret a => f a
  | Throw e => Throw e
  | HttpGet url k => HttpGet url (fun r => bind (k r) f)
  | ConsoleWarn msg k => ConsoleWarn msg (bind k f)
  end.

(** [try { p } catch (error) { h error }] *)
Fixpoint try_catch {A : Type} (p : Prog A) (h : JsError -> Prog A) : Prog A :=
  match p with
  | Ret a => Ret a
  | Throw e => h e
  | HttpGet url k => HttpGet url (fun r => try_catch (k r) h)
  | ConsoleWarn msg k => ConsoleWarn msg (try_catch k h)
  end.

Notation "'do' x <- p ;; q" := (bind p (fun x => q))
  (at level 10, x name, p at level 99, q at level 200,
   format "'[v' 'do'  x  <-  p  ;;  '/' q ']'").

(** [(await axios.get(url)).data] *)
Definition axios_get_data (url : string) : Prog JsVal :=
  HttpGet url (fun r =>
    match r with
    | FetchOk data => Ret data
    | FetchFailed => Throw NetworkError
    end).

Definition console_warn (msg : string) : Prog unit := ConsoleWarn msg (Ret tt).

(** [v[k]], [v.k]: a TypeError on [null] and [undefined]. *)
Definition get (v : JsVal) (k : string) : Prog JsVal :=
  if nullish v then Throw TypeError else Ret (read_prop v k).

(** [Object.keys(v)] *)
Definition Object_keys (v : JsVal) : Prog (list string) :=
  if nullish v then Throw TypeError else Ret ((own_props v).*1).

(** [Object.entries(v)] *)
Definition Object_entries (v : JsVal) : Prog (list (string * JsVal)) :=
  if nullish v then Throw TypeError else Ret (own_props v).

(** [l.filter(f)] for a callback that may throw *)
Fixpoint Array_filter {A : Type} (f : A -> Prog bool) (l : list A) : Prog (list A) :=
  match l with
  | [] => Ret []
  | x :: l' =>
      do b <- f x ;;
      do rest <- Array_filter f l' ;;
      Ret (if b then x :: rest else rest)
  end.

(** [l.sort()] on strings: ascending by code units. *)
Definition Array_sort (l : list string) : list string := merge_sort String.le l.

(** ** Running a program against a registry *)

Inductive Completion (A : Type) : Type :=
| Normal (a : A)
| Abrupt (e : JsError).

Arguments Normal {A} a.
Arguments Abrupt {A} e.

Inductive Event : Type :=
| Requested (url : string)
| Warned (msg : string).

(** A registry answers each URL; [run] gives how the program completes and
    the requests and warnings it made, in order. *)
Definition Registry : Type := string -> FetchResult.

Fixpoint run {A : Type} (net : Registry) (p : Prog A) : Completion A * list Event :=
  match p with
  | Ret a => (Normal a, [])
  | Throw e => (Abrupt e, [])
  | HttpGet url k => let '(c, t) := run net (k (net url)) in (c, Requested url :: t)
  | ConsoleWarn msg k => let '(c, t) := run net k in (c, Warned msg :: t)
  end.

(** ** The registry client *)

Definition registry_url : string := "https://registry.npmjs.org/".

Definition package_url (packageName : string) : string :=
  registry_url +:+ packageName.

Definition version_url (packageName version : string) : string :=
  registry_url +:+ packageName +:+ "/" +:+ version.

Definition getPeerDependencies (packageName version : string) : Prog JsVal :=
  try_catch
    (do data <- axios_get_data (version_url packageName version) ;;
     if String.eqb (typeof data) "object"
     then (do pd <- get data "peerDependencies" ;; Ret (js_or pd (JObj [])))
     else Ret (JObj []))
    (fun _ =>
       do _ <- console_warn ("Could not fetch peer dependencies for "
                          +:+ packageName +:+ "@" +:+ version) ;;
       Ret (JObj [])).

(** The callback of the [filter] in [getCompatibleVersion]. *)
Definition declares_core (versions : JsVal) (angularVersion v : string) : Prog bool :=
  do entry <- get versions v ;;
  do pd <- get entry "peerDependencies" ;;
  do core <- get (js_or pd (JObj [])) "@angular/core" ;;
  Ret (strict_eq_string core angularVersion).

Definition getCompatibleVersion (packageName angularVersion : string) : Prog string :=
  try_catch
    (do data <- axios_get_data (package_url packageName) ;;
     if String.eqb (typeof data) "object" && not_null data
     then
       do versions <- get data "versions" ;;
       do keys <- Object_keys versions ;;
       do compatible <- Array_filter (declares_core versions angularVersion) keys ;;
       let compatibleVersion := head (Array_sort compatible) in
       Ret (match compatibleVersion with
            | Some v => if truthy (JStr v) then v else "latest"
            | None => "latest"
            end)
     else Ret "latest")
    (fun _ =>
       do _ <- console_warn ("Could not fetch version for " +:+ packageName
                          +:+ ", using 'latest'") ;;
       Ret "latest").

(** ** The compatibility resolver *)

Record PackageRequest : Type := { name : string; version : string }.

Definition dependenciesToCheck : list PackageRequest :=
  [ {| name := "rxjs"; version := "latest" |};
    {| name := "primeng"; version := "latest" |};
    {| name := "primeflex"; version := "latest" |};
    {| name := "keycloak-js"; version := "latest" |};
    {| name := "keycloak-angular"; version := "latest" |} ].

(** [Set<string>] and [Map<string, Set<string>>], both in insertion order. *)
Abbreviation JsSet := (list string).
Abbreviation JsMap := (list (string * list string)).

Definition Set_add (s : JsSet) (v : string) : JsSet :=
  if decide (v ∈ s) then s else s ++ [v].

Definition Map_get (m : JsMap) (k : string) : option JsSet := assoc k m.

Definition Map_has (m : JsMap) (k : string) : bool :=
  match Map_get m k with
  | Some _ => true
  | None => false
  end.

(** [m.set(k, s)]: an existing key keeps its place. *)
Fixpoint Map_set (m : JsMap) (k : string) (s : JsSet) : JsMap :=
  match m with
  | [] => [(k, s)]
  | (k', s') :: m' =>
      if decide (k' = k) then (k, s) :: m' else (k', s') :: Map_set m' k s
  end.

(** The callback of [Object.entries(peerDeps).forEach].  The [Set] that
    [get] returns is the one the map holds, so [add] on it updates the
    map's entry in place. *)
Definition recordPeerDependency (compatibilityMap : JsMap) (entry : string * JsVal) : JsMap :=
  let '(depName, depVersion) := entry in
  let compatibilityMap :=
    if negb (Map_has compatibilityMap depName)
    then Map_set compatibilityMap depName []
    else compatibilityMap in
  match depVersion with
  | JStr depVersion =>
      match Map_get compatibilityMap depName with
      | Some versions => Map_set compatibilityMap depName (Set_add versions depVersion)
      | None => compatibilityMap
      end
  | _ => compatibilityMap
  end.

(** [for (const x of l) { s = body(s, x) }] and [forEach], threading the
    variables the body assigns. *)
Fixpoint for_of {A S : Type} (l : list A) (body : S -> A -> Prog S) (s : S) : Prog S :=
  match l with
  | [] => Ret s
  | x :: l' => do s' <- body s x ;; for_of l' body s'
  end.

Record ResolverState : Type :=
  { resolvedPackages : list string; compatibilityMap : JsMap }.

(** The body of the loop over [dependenciesToCheck]. *)
Definition resolveStep (angularVersion : string) (st : ResolverState)
    (pkg : PackageRequest) : Prog ResolverState :=
  do version <- getCompatibleVersion (name pkg) angularVersion ;;
  do peerDeps <- getPeerDependencies (name pkg) version ;;
  let resolvedPackages := resolvedPackages st ++ [name pkg +:+ "@" +:+ version] in
  do entries <- Object_entries peerDeps ;;
  Ret {| resolvedPackages := resolvedPackages;
         compatibilityMap := foldl recordPeerDependency (compatibilityMap st) entries |}.

(** The callback of [compatibilityMap.forEach]. *)
Definition reportConflict (forceInstall : bool) (entry : string * list string) : Prog bool :=
  let '(depName, versions) := entry in
  if (1 <? length versions)%nat
  then
    do _ <- console_warn ("Detected conflicting versions for " +:+ depName +:+ ": "
                          +:+ String.concat ", " versions) ;;
    Ret true
  else Ret forceInstall.

Record ResolutionResult : Type :=
  { packages : list string; forceInstall : bool }.

(** [resolveDependencies] with the list it iterates over as an argument. *)
Definition resolveDependenciesOf (requests : list PackageRequest)
    (angularVersion : string) : Prog ResolutionResult :=
  let st := {| resolvedPackages := ["@schematics/angular@" +:+ angularVersion];
               compatibilityMap := [] |} in
  do st <- for_of requests (resolveStep angularVersion) st ;;
  do forceInstall <- for_of (compatibilityMap st) reportConflict false ;;
  Ret {| packages := resolvedPackages st; forceInstall := forceInstall |}.

Definition resolveDependencies (angularVersion : string) : Prog ResolutionResult :=
  resolveDependenciesOf dependenciesToCheck angularVersion.

(** ** What a registry document declares *)

(** The versions a package document lists: the keys of its [versions]. *)
Definition published_versions (data : JsVal) : list string :=
  (own_props (read_prop data "versions")).*1.

(** The value [(versions[v].peerDependencies || {})['@angular/core']]. *)
Definition declared_core (versions : JsVal) (v : string) : JsVal :=
  read_prop (js_or (read_prop (read_prop versions v) "peerDependencies") (JObj []))
            "@angular/core".

(** Version [v] of the listing declares exactly [angularVersion] as its peer
    dependency on the framework core. *)
Definition qualifies (versions : JsVal) (angularVersion v : string) : bool :=
  negb (nullish (read_prop versions v))
  && strict_eq_string (declared_core versions v) angularVersion.

Definition compatible_with (data : JsVal) (angularVersion v : string) : Prop :=
  v ∈ published_versions data
  ∧ nullish (read_prop (read_prop data "versions") v) = false
  ∧ declared_core (read_prop data "versions") v = JStr angularVersion.

(** No entry of [versions] is [null]: reading a property of each is safe. *)
Definition entries_readable (data : JsVal) : Prop :=
  ∀ v, v ∈ published_versions data →
       nullish (read_prop (read_prop data "versions") v) = false.

(** ** The results of the registry client, computed without effects *)

(** Every entry of [versions] under the given keys can be read. *)
Definition readable (versions : JsVal) (keys : list string) : bool :=
  forallb (fun v => negb (nullish (read_prop versions v))) keys.

(** [compatibleVersion || 'latest'] *)
Definition or_latest (compatibleVersion : option string) : string :=
  match compatibleVersion with
  | Some v => if truthy (JStr v) then v else "latest"
  | None => "latest"
  end.

(** What the [try] block of [getCompatibleVersion] returns on a document,
    [None] when it throws. *)
Definition resolve_listing (data : JsVal) (V : string) : option string :=
  if String.eqb (typeof data) "object" && not_null data
  then
    let versions := read_prop data "versions" in
    if nullish versions then None
    else if readable versions (published_versions data)
    then Some (or_latest (head (Array_sort
           (filter (λ v, qualifies versions V v = true) (published_versions data)))))
    else None
  else Some "latest".

Definition version_warning (packageName : string) : string :=
  "Could not fetch version for " +:+ packageName +:+ ", using 'latest'".

Definition resolved_version_of (r : FetchResult) (V : string) : string :=
  match r with
  | FetchFailed => "latest"
  | FetchOk data => default "latest" (resolve_listing data V)
  end.

Definition peer_warning (packageName version : string) : string :=
  "Could not fetch peer dependencies for " +:+ packageName +:+ "@" +:+ version.

(** The fetch of a document went wrong: the request was rejected, or the
    body could not be parsed as JSON and is delivered as the string that was
    received. *)
Definition fetch_error (r : FetchResult) : Prop :=
  r = FetchFailed ∨ ∃ body, r = FetchOk (JStr body).

(** The [try] block of [getPeerDependencies] throws: the fetch failed, or
    the data is [null]. *)
Definition peer_read_throws (r : FetchResult) : bool :=
  match r with
  | FetchFailed => true
  | FetchOk data => String.eqb (typeof data) "object" && nullish data
  end.

Definition peer_dependencies_of (r : FetchResult) : JsVal :=
  match r with
  | FetchFailed => JObj []
  | FetchOk data =>
      if String.eqb (typeof data) "object" && negb (nullish data)
      then js_or (read_prop data "peerDependencies") (JObj [])
      else JObj []
  end.

(** The response shapes under which nothing can be resolved: a failed
    fetch, data that is not an object, a [versions] that is missing, [null]
    or not an object, a [null] entry in it, or an empty qualifying version.
    A [versions] that is an array is not among them: [typeof] gives "object"
    for it, and the code reads it as a listing whose keys are the indices
    (see [array_versions_listing]). *)
Definition degenerate (r : FetchResult) (V : string) : Prop :=
  match r with
  | FetchFailed => True
  | FetchOk data =>
      typeof data ≠ "object" ∨ data = JNull
      ∨ typeof (read_prop data "versions") ≠ "object"
      ∨ read_prop data "versions" = JNull
      ∨ ¬ entries_readable data
      ∨ compatible_with data V ""
  end.

(** ** The conflict map and the loop, computed without effects *)

(** [spec] is in the set the map holds under [k]. *)
Definition recorded (m : JsMap) (k spec : string) : Prop :=
  ∃ s, Map_get m k = Some s ∧ spec ∈ s.

(** Keys are distinct and every set is free of repetitions. *)
Definition Map_wf (m : JsMap) : Prop :=
  NoDup m.*1 ∧ ∀ k s, Map_get m k = Some s → NoDup s.

(** Some set of the map has more than one element. *)
Definition has_conflict (m : JsMap) : bool :=
  existsb (fun e => (1 <? length e.2)%nat) m.

Definition requests_of (t : list Event) : list string :=
  omap (fun e => match e with Requested url => Some url | Warned _ => None end) t.

(** The state after the loop body has run for [pkg]. *)
Definition next_state (net : Registry) (V : string) (st : ResolverState)
    (pkg : PackageRequest) : ResolverState :=
  let version := resolved_version_of (net (package_url (name pkg))) V in
  {| resolvedPackages := resolvedPackages st ++ [name pkg +:+ "@" +:+ version];
     compatibilityMap :=
       foldl recordPeerDependency (compatibilityMap st)
         (own_props (peer_dependencies_of (net (version_url (name pkg) version)))) |}.

Definition step_requests (net : Registry) (V : string) (pkg : PackageRequest) : list string :=
  [package_url (name pkg);
   version_url (name pkg) (resolved_version_of (net (package_url (name pkg))) V)].

Definition initial_state (V : string) : ResolverState :=
  {| resolvedPackages := ["@schematics/angular@" +:+ V]; compatibilityMap := [] |}.

Definition specifier (net : Registry) (V : string) (pkg : PackageRequest) : string :=
  name pkg +:+ "@" +:+ resolved_version_of (net (package_url (name pkg))) V.

(** The entries of the peer dependencies fetched for [pkg]. *)
Definition peer_entries (net : Registry) (V : string) (pkg : PackageRequest) :
    list (string * JsVal) :=
  own_props (peer_dependencies_of
    (net (version_url (name pkg) (resolved_version_of (net (package_url (name pkg))) V)))).

(** ** Vocabulary of the claims about [resolveDependencies] *)

(** [pkg] resolves to the specifier [entry]. *)
Definition resolves_as (net : Registry) (V : string) (pkg : PackageRequest)
    (entry : string) : Prop :=
  ∃ version t, run net (getCompatibleVersion (name pkg) V) = (Normal version, t)
               ∧ entry = name pkg +:+ "@" +:+ version.

(** The registry declares the peer dependency [depName: x] for [pkg]: the
    document it serves for the version that the listing of [pkg] resolves to
    is an object whose [peerDependencies] has the entry [depName: x].  This
    reads the registry's answers only; no part of the resolver is run. *)
Definition declares_peer (net : Registry) (V : string) (pkg : PackageRequest)
    (depName : string) (x : JsVal) : Prop :=
  ∃ data,
    net (version_url (name pkg) (resolved_version_of (net (package_url (name pkg))) V))
    = FetchOk data
    ∧ typeof data = "object"
    ∧ (depName, x) ∈ own_props (read_prop data "peerDependencies").

(** The registry declares [depName: spec], a string, for some package of
    the batch. *)
Definition observed (net : Registry) (V : string) (requests : list PackageRequest)
    (depName spec : string) : Prop :=
  ∃ pkg, pkg ∈ requests ∧ declares_peer net V pkg depName (JStr spec).

(** ** Example registries *)

Definition release (core : string) : JsVal :=
  JObj [("peerDependencies", JObj [("@angular/core", JStr core)])].

Definition primeng_listing : JsVal :=
  JObj [("name", JStr "primeng");
        ("versions", JObj [("2.0.0", release "17.0.0");
                           ("10.0.0", release "17.0.0");
                           ("9.0.0", release "^16.0.0")])].

Definition only (packageName : string) (data : JsVal) : Registry :=
  fun url => if decide (url = package_url packageName) then FetchOk data else FetchFailed.

(** A listing whose smallest qualifying key is the empty string. *)
Definition empty_key_listing : JsVal :=
  JObj [("versions", JObj [("", release "17.0.0"); ("1.0.0", release "17.0.0")])].

(** A registry that answers every request with a page that is not JSON. *)
Definition gateway_page : Registry :=
  fun _ => FetchOk (JStr "<html><body>502 Bad Gateway</body></html>").

(** A listing whose [versions] is an array: its keys are "0" and "1". *)
Definition array_versions_listing : JsVal :=
  JObj [("versions", JArr [release "16.0.0"; release "17.0.0"])].

(** A listing with two qualifying versions and a [null] entry. *)
Definition null_entry_listing : JsVal :=
  JObj [("versions", JObj [("1.0.0", release "17.0.0");
                           ("2.0.0", release "17.0.0");
                           ("3.0.0", JNull)])].

Definition rxjs_zone_11 : JsVal :=
  JObj [("name", JStr "rxjs");
        ("peerDependencies", JObj [("zone.js", JStr "~0.11.0")])].

Definition primeng_zone (spec : string) : JsVal :=
  JObj [("name", JStr "primeng");
        ("peerDependencies", JObj [("zone.js", JStr spec); ("rxjs", JStr "^7.0.0")])].

(** rxjs and primeng both declare zone.js, primeng with [spec]. *)
Definition zone_registry (spec : string) : Registry :=
  fun url =>
    if decide (url = version_url "rxjs" "latest") then FetchOk rxjs_zone_11
    else if decide (url = package_url "primeng") then FetchOk primeng_listing
    else if decide (url = version_url "primeng" "10.0.0") then FetchOk (primeng_zone spec)
    else FetchFailed.

(** A registry that differs from [zone_registry] only on a package that the
    resolver never asks for. *)
Definition zone_registry_with_lodash (spec : string) : Registry :=
  fun url =>
    if decide (url = package_url "lodash") then FetchOk (JObj [("name", JStr "lodash")])
    else zone_registry spec url.

(** ** Decimal index keys *)

Definition not_a_digit (c : ascii) : Prop := ∀ n, pretty_N_char n ≠ c.

(** ** The orchestrator's effects: processes, files, prompts, the GitHub API *)

(** What a [throw] carries outside the resolver: an error of the resolver's
    kind, the rejection of an axios request (with [error.response.status]
    when the server answered), [new Error(message)], the failure of
    [execSync], and the failure of a file-system or [chdir] call. *)
Inductive Thrown : Type :=
| JsThrown (e : JsError)
| AxiosError (status : option Z)
| ErrorOf (message : string)
| ExecError (command : string)
| FsError (path : string).

Record HttpRequest : Type :=
  { req_method : string;
    req_url : string;
    req_headers : list (string * string);
    req_body : JsVal }.

Inductive HttpOutcome : Type :=
| Rejected (status : option Z)
| Resolved (data : JsVal).

Inductive Effect : Type :=
| Http (req : HttpRequest)
| ExecSync (command : string) (cwd : option string)
| GetEnv (var : string)
| ExistsSync (path : string)
| MkdirSync (path : string)
| Chdir (path : string)
| Cwd
| PromptText (field message initial : string)
| PromptConfirm (field message : string) (initial : bool).

(** What each call gives back: for [ExecSync], [MkdirSync] and [Chdir]
    whether it returned rather than threw; an environment variable and a
    prompt's answer may be [undefined]. *)
Definition answer (eff : Effect) : Type :=
  match eff with
  | Http _ => HttpOutcome
  | ExecSync _ _ => bool
  | GetEnv _ => option string
  | ExistsSync _ => bool
  | MkdirSync _ => bool
  | Chdir _ => bool
  | Cwd => string
  | PromptText _ _ _ => option string
  | PromptConfirm _ _ _ => option bool
  end.

Inductive Level : Type := LogLevel | WarnLevel | ErrorLevel.

(** An argument of a console call: a string, [undefined], a template
    literal that ends in a value, [error.message], or the error itself. *)
Inductive LogArg : Type :=
| Text (s : string)
| Undefined
| Template (prefix : string) (v : JsVal)
| MessageOf (e : Thrown)
| ErrorObject (e : Thrown).

Inductive Proc (A : Type) : Type :=
| PRet (a : A)
| PThrow (e : Thrown)
| PExit (code : Z)
| PCall (eff : Effect) (k : answer eff -> Proc A)
| PLog (level : Level) (args : list LogArg) (k : Proc A)
| PUnhandled (e : Thrown) (k : Proc A).

Arguments PRet {A} a.
Arguments PThrow {A} e.
Arguments PExit {A} code.
Arguments PCall {A} eff k.
Arguments PLog {A} level args k.
Arguments PUnhandled {A} e k.

Fixpoint pbind {A B : Type} (p : Proc A) (f : A -> Proc B) : Proc B :=
  match p with
  | PRet a => f a
  | PThrow e => PThrow e
  | PExit code => PExit code
  | PCall eff k => PCall eff (fun r => pbind (k r) f)
  | PLog level args k => PLog level args (pbind k f)
  | PUnhandled e k => PUnhandled e (pbind k f)
  end.

(** [try { p } catch (error) { h error }]; [process.exit] is not caught. *)
Fixpoint ptry {A : Type} (p : Proc A) (h : Thrown -> Proc A) : Proc A :=
  match p with
  | PRet a => PRet a
  | PThrow e => h e
  | PExit code => PExit code
  | PCall eff k => PCall eff (fun r => ptry (k r) h)
  | PLog level args k => PLog level args (ptry k h)
  | PUnhandled e k => PUnhandled e (ptry k h)
  end.

Notation "'doP' x <- p ;; q" := (pbind p (fun x => q))
  (at level 10, x name, p at level 99, q at level 200,
   format "'[v' 'doP'  x  <-  p  ;;  '/' q ']'").

(** A call of an [async] function whose promise nobody awaits: what it
    throws rejects the promise and reaches no caller. *)
Definition not_awaited (p : Proc unit) : Proc unit :=
  ptry p (fun e => PUnhandled e (PRet tt)).

Definition console (level : Level) (args : list LogArg) : Proc unit :=
  PLog level args (PRet tt).

(** A program of the resolver, run inside the orchestrator. *)
Definition get_request (url : string) : HttpRequest :=
  {| req_method := "GET"; req_url := url; req_headers := []; req_body := JUndefined |}.

Definition fetch_result (o : HttpOutcome) : FetchResult :=
  match o with
  | Rejected _ => FetchFailed
  | Resolved data => FetchOk data
  end.

Fixpoint lift {A : Type} (p : Prog A) : Proc A :=
  match p with
  | Ret a => PRet a
  | Throw e => PThrow (JsThrown e)
  | HttpGet url k => PCall (Http (get_request url)) (fun o => lift (k (fetch_result o)))
  | ConsoleWarn msg k => PLog WarnLevel [Text msg] (lift k)
  end.

(** [await axios(req)]: the response's data, or the rejection thrown. *)
Definition axios (req : HttpRequest) : Proc JsVal :=
  PCall (Http req) (fun o =>
    match o return Proc JsVal with
    | Resolved data => PRet data
    | Rejected status => PThrow (AxiosError status)
    end).

(** [execSync(command, { stdio: 'inherit', cwd })] *)
Definition execSync (command : string) (cwd : option string) : Proc unit :=
  PCall (ExecSync command cwd) (fun ok : bool =>
    if ok then PRet tt else PThrow (ExecError command)).

Definition mkdirSync (path : string) : Proc unit :=
  PCall (MkdirSync path) (fun ok : bool => if ok then PRet tt else PThrow (FsError path)).

Definition chdir (path : string) : Proc unit :=
  PCall (Chdir path) (fun ok : bool => if ok then PRet tt else PThrow (FsError path)).

(** [v.k] in the orchestrator. *)
Definition pget (v : JsVal) (k : string) : Proc JsVal :=
  if nullish v then PThrow (JsThrown TypeError) else PRet (read_prop v k).

(** ** Running the orchestrator *)

(** The machine the tool runs on: each oracle answers one kind of call;
    [run_command] is given the command line and the directory it runs in. *)
Record World : Type :=
  { http : HttpRequest -> HttpOutcome;
    run_command : string -> string -> bool;
    getenv : string -> option string;
    path_exists : string -> bool;
    can_mkdir : string -> bool;
    can_chdir : string -> bool;
    answer_text : string -> option string;
    answer_confirm : string -> option bool }.

(** The answer to a call made in directory [cwd], and the directory after.
    A directory is known by the path it was entered with: after
    [process.chdir(p)] the commands run in [p], which the operating system
    reads, when [p] is relative, from the directory the process was in. *)
Definition handle (w : World) (cwd : string) (eff : Effect) : answer eff * string :=
  match eff return answer eff * string with
  | Http req => (http w req, cwd)
  | ExecSync command dir => (run_command w command (default cwd dir), cwd)
  | GetEnv var => (getenv w var, cwd)
  | ExistsSync path => (path_exists w path, cwd)
  | MkdirSync path => (can_mkdir w path, cwd)
  | Chdir path => (can_chdir w path, if can_chdir w path then path else cwd)
  | Cwd => (cwd, cwd)
  | PromptText field _ _ => (answer_text w field, cwd)
  | PromptConfirm field _ _ => (answer_confirm w field, cwd)
  end.

Inductive Outcome (A : Type) : Type :=
| Returned (a : A)
| Threw (e : Thrown)
| Exited (code : Z).

Arguments Returned {A} a.
Arguments Threw {A} e.
Arguments Exited {A} code.

Inductive PEvent : Type :=
| Called (eff : Effect) (cwd : string)
| Logged (level : Level) (args : list LogArg)
| UnhandledRejection (e : Thrown).

Record Run (A : Type) : Type :=
  { outcome : Outcome A; events : list PEvent; final_cwd : string }.

Arguments outcome {A} r.
Arguments events {A} r.
Arguments final_cwd {A} r.

Definition after {A : Type} (ev : PEvent) (r : Run A) : Run A :=
  {| outcome := outcome r; events := ev :: events r; final_cwd := final_cwd r |}.

Fixpoint run_proc {A : Type} (w : World) (cwd : string) (p : Proc A) : Run A :=
  match p with
  | PRet a => {| outcome := Returned a; events := []; final_cwd := cwd |}
  | PThrow e => {| outcome := Threw e; events := []; final_cwd := cwd |}
  | PExit code => {| outcome := Exited code; events := []; final_cwd := cwd |}
  | PCall eff k =>
      let '(r, cwd') := handle w cwd eff in
      after (Called eff cwd) (run_proc w cwd' (k r))
  | PLog level args k => after (Logged level args) (run_proc w cwd k)
  | PUnhandled e k => after (UnhandledRejection e) (run_proc w cwd k)
  end.

(** The registry the resolver sees in a world. *)
Definition registry_of (w : World) : Registry :=
  fun url => fetch_result (http w (get_request url)).

(** ** Strings of the orchestrator *)

(** The code units 34 (double quote), 224 and 232 (a and e with grave). *)
Definition dquote : string := String (ascii_of_nat 34) "".
Definition a_grave : string := String (ascii_of_nat 224) "".
Definition e_grave : string := String (ascii_of_nat 232) "".

(** [args.join(' ')] *)
Definition join_spaces (args : list string) : string := String.concat " " args.

(** [s.slice(n)] *)
Fixpoint slice_from (n : nat) (s : string) : string :=
  match n, s with
  | S n', String _ s' => slice_from n' s'
  | _, _ => s
  end.

(** The first occurrence of [pattern] in [s]: what precedes and what
    follows it. *)
Fixpoint split_first (pattern s : string) : option (string * string) :=
  if String.prefix pattern s
  then Some ("", slice_from (String.length pattern) s)
  else match s with
       | EmptyString => None
       | String c s' =>
           match split_first pattern s' with
           | Some (before, rest) => Some (String c before, rest)
           | None => None
           end
       end.

(** The replacement text of [replace] for a string pattern, which has no
    capture groups: [$$], [$&], [$`] and [$'] are expanded, every other [$]
    stands for itself. *)
Fixpoint substitution (matched before rest replacement : string) : string :=
  match replacement with
  | EmptyString => ""
  | String d tail =>
      if Ascii.eqb d "$"
      then match tail with
           | EmptyString => "$"
           | String c tail' =>
               if Ascii.eqb c "$" then "$" +:+ substitution matched before rest tail'
               else if Ascii.eqb c "&" then matched +:+ substitution matched before rest tail'
               else if Ascii.eqb c "`" then before +:+ substitution matched before rest tail'
               else if Ascii.eqb c "'" then rest +:+ substitution matched before rest tail'
               else String "$" (substitution matched before rest tail)
           end
      else String d (substitution matched before rest tail)
  end.

(** [s.replace(pattern, replacement)] with a string pattern. *)
Definition String_replace (s pattern replacement : string) : string :=
  match split_first pattern s with
  | Some (before, rest) =>
      before +:+ substitution pattern before rest replacement +:+ rest
  | None => s
  end.

(** ** The orchestrator *)

(** [process.env.VAR] as a value. *)
Definition env_value (o : option string) : LogArg :=
  match o with
  | Some s => Text s
  | None => Undefined
  end.

Definition getGitHubToken : Proc string :=
  doP token <- PCall (GetEnv "GITHUB_TOKEN") PRet ;;
  doP _ <- console LogLevel [env_value token] ;;
  match token with
  | Some token =>
      if negb (truthy (JStr token))
      then
        doP _ <- console ErrorLevel
                   [Text ("Errore: La variabile d'ambiente GITHUB_TOKEN non "
                          +:+ e_grave +:+ " impostata.")] ;;
        PExit 1
      else PRet token
  | None =>
      doP _ <- console ErrorLevel
                 [Text ("Errore: La variabile d'ambiente GITHUB_TOKEN non "
                        +:+ e_grave +:+ " impostata.")] ;;
      PExit 1
  end.

Definition repos_url : string := "https://api.github.com/user/repos".

Definition list_repos_request (token : string) : HttpRequest :=
  {| req_method := "GET";
     req_url := repos_url;
     req_headers := [("Authorization", "Bearer " +:+ token)];
     req_body := JUndefined |}.

Definition create_repo_request (repoName : string) (privateRepo : bool)
    (token : string) : HttpRequest :=
  {| req_method := "POST";
     req_url := repos_url;
     req_headers := [("Authorization", "Bearer " +:+ token);
                     ("Content-Type", "application/json")];
     req_body := JObj [("name", JStr repoName); ("private", JBool privateRepo)] |}.

(** [l.some(f)] for a callback that may throw: it stops at the first
    element for which [f] is true. *)
Fixpoint Array_some (f : JsVal -> Proc bool) (l : list JsVal) : Proc bool :=
  match l with
  | [] => PRet false
  | x :: l' => doP b <- f x ;; if b then PRet true else Array_some f l'
  end.

(** The callback [repo => repo.name === repoName]. *)
Definition has_name (repoName : string) (repo : JsVal) : Proc bool :=
  doP n <- pget repo "name" ;;
  PRet (strict_eq_string n repoName).

(** [response.data.some] is a function only when the data is an array. *)
Definition checkIfRepoExists (repoName token : string) : Proc bool :=
  ptry
    (doP data <- axios (list_repos_request token) ;;
     match data with
     | JArr repos => Array_some (has_name repoName) repos
     | _ => PThrow (JsThrown TypeError)
     end)
    (fun error =>
       doP _ <- console ErrorLevel
                  [Text "Errore durante la verifica dell'esistenza del repository:";
                   MessageOf error] ;;
       PRet false).

(** [error.response && error.response.status === 422] *)
Definition is_422 (error : Thrown) : bool :=
  match error with
  | AxiosError (Some status) => (status =? 422)%Z
  | _ => false
  end.

Definition createGitRepo (repoName : string) (privateRepo : bool) (token : string) :
    Proc JsVal :=
  ptry
    (doP exists_ <- checkIfRepoExists repoName token ;;
     if exists_ : bool
     then PThrow (ErrorOf ("Esiste gi" +:+ a_grave +:+ " un repository con il nome "
                           +:+ dquote +:+ repoName +:+ dquote +:+ "."))
     else
       doP data <- axios (create_repo_request repoName privateRepo token) ;;
       doP clone_url <- pget data "clone_url" ;;
       if negb (truthy clone_url)
       then PThrow (ErrorOf "Failed to create GitHub repository")
       else PRet clone_url)
    (fun error =>
       doP _ <- (if is_422 error
                 then console ErrorLevel
                        [Text ("Errore durante la creazione del repository: Repository gi"
                               +:+ a_grave +:+ " esistente o nome non valido.")]
                 else console ErrorLevel
                        [Text "Errore durante la richiesta Axios:"; MessageOf error]) ;;
       PThrow error).

Definition runCommand (command : string) (args : list string) (cwd : option string) :
    Proc unit :=
  ptry
    (execSync (command +:+ " " +:+ join_spaces args) cwd)
    (fun error =>
       doP _ <- console ErrorLevel
                  [Text ("Errore durante l'esecuzione del comando: " +:+ command
                         +:+ " " +:+ join_spaces args)] ;;
       PThrow error).

(** [repoUrl.replace(...)]: a value that is not a string has no [replace]. *)
Definition replace_of (repoUrl : JsVal) (pattern replacement : string) : Proc string :=
  match repoUrl with
  | JStr s => PRet (String_replace s pattern replacement)
  | _ => PThrow (JsThrown TypeError)
  end.

Definition setupGitRepository (projectPath : string) (repoUrl : JsVal) (token : string) :
    Proc unit :=
  doP exists_ <- PCall (ExistsSync projectPath) PRet ;;
  doP _ <- (if negb exists_ then mkdirSync projectPath else PRet tt) ;;
  doP _ <- chdir projectPath ;;
  ptry
    (doP _ <- execSync "git init" None ;;
     doP _ <- execSync ("git config user.name " +:+ dquote +:+ "Your Name" +:+ dquote) None ;;
     doP _ <- execSync ("git config user.email " +:+ dquote +:+ "your-email@example.com"
                        +:+ dquote) None ;;
     doP authRepoUrl <- replace_of repoUrl "https://" ("https://" +:+ token +:+ "@") ;;
     doP _ <- execSync ("git remote add origin " +:+ authRepoUrl) None ;;
     doP _ <- execSync "git add ." None ;;
     doP _ <- ptry
                (execSync ("git commit -m " +:+ dquote +:+ "Initial commit" +:+ dquote) None)
                (fun _ =>
                   console WarnLevel
                     [Text ("Nessun file da committare o commit gi" +:+ a_grave
                            +:+ " presente.")]) ;;
     execSync "git push -u origin master" None)
    (fun error =>
       console ErrorLevel
         [Text "Errore durante la configurazione del repository Git:"; ErrorObject error]).

Definition installDependenciesRule (angularVersion : string) : Proc unit :=
  doP resolved <- lift (resolveDependencies angularVersion) ;;
  let additionalArgs := if forceInstall resolved then ["--legacy-peer-deps"] else [] in
  let installCommand := "npm" in
  let installArgs := "install" :: packages resolved ++ additionalArgs in
  doP _ <- console LogLevel
             [Text ("Esecuzione comando: " +:+ installCommand +:+ " "
                    +:+ join_spaces installArgs)] ;;
  runCommand installCommand installArgs None.

(** The options of the schematic: each is a string when it is given. *)
Record Options : Type :=
  { angular_version : option string;
    project_name : option string;
    target_directory : option string }.

(** [option || fallback] *)
Definition or_default (o : option string) (fallback : string) : string :=
  match o with
  | Some s => if truthy (JStr s) then s else fallback
  | None => fallback
  end.

(** Node's [path] module, which depends on the platform. *)
Record PathModule : Type :=
  { path_isAbsolute : string -> bool;
    path_join : string -> string -> string;
    path_resolve : string -> string -> string -> string;
    path_dirname : string -> string;
    path_basename : string -> string }.

Definition confirmed (o : option bool) : bool := default false o.

(** The target directory: the option, or the answer to the prompt when the
    option is missing or empty; the answer is [undefined] when the prompt is
    cancelled. *)
Definition askTargetDirectory (options : Options) : Proc (option string) :=
  let targetDirectory := or_default (target_directory options) "./" in
  if negb (truthy (JStr (default "" (target_directory options))))
  then PCall (PromptText "targetDirectory"
                "Inserisci la directory di destinazione per il progetto Angular:"
                "./") PRet
  else PRet (Some targetDirectory).

(** [fullPath]; [path.isAbsolute(undefined)] throws a TypeError. *)
Definition resolveFullPath (path : PathModule) (targetDirectory : option string)
    (projectName : string) : Proc string :=
  match targetDirectory with
  | None => PThrow (JsThrown TypeError)
  | Some targetDirectory =>
      if path_isAbsolute path targetDirectory
      then PRet (path_join path targetDirectory projectName)
      else doP cwd <- PCall Cwd PRet ;;
           PRet (path_resolve path cwd targetDirectory projectName)
  end.

(** The block [if (gitResponse.createRepo) { ... }] and the [repoUrl] it
    leaves; its [token] is a constant of the block. *)
Definition createRepoIfConfirmed (projectDirName : string) (createRepo : option bool) :
    Proc JsVal :=
  let repoUrl := JStr "" in
  if confirmed createRepo
  then
    doP token <- getGitHubToken ;;
    ptry
      (doP repoUrl <- createGitRepo projectDirName true token ;;
       doP _ <- console LogLevel
                  [Template "Repository GitHub creato con successo: " repoUrl] ;;
       PRet repoUrl)
      (fun error =>
         doP _ <- console ErrorLevel
                    [Text "Errore durante la creazione del repository:";
                     ErrorObject error] ;;
         PRet repoUrl)
  else PRet repoUrl.

Definition ng_new_args (projectDirName angularVersion : string) : list string :=
  ["ng"; "new"; projectDirName; "--version"; angularVersion; "--routing"; "--style"; "scss"].

(** The rules of the chain, which run in order and stop at the first that
    throws. *)
Definition chainedRules (angularVersion projectDirName workingDir fullPath : string)
    (repoUrl : JsVal) (token : string) : Proc unit :=
  doP _ <- runCommand "npx" (ng_new_args projectDirName angularVersion) (Some workingDir) ;;
  doP _ <- installDependenciesRule angularVersion ;;
  if truthy repoUrl
  then not_awaited (setupGitRepository fullPath repoUrl token)
  else PRet tt.

(** The schematic: the [async] rule and then the chain it returns. *)
Definition eggsNextSetup (path : PathModule) (options : Options) : Proc unit :=
  let angularVersion := or_default (angular_version options) "latest" in
  let projectName := or_default (project_name options) "my-angular-app" in
  doP targetDirectory <- askTargetDirectory options ;;
  doP fullPath <- resolveFullPath path targetDirectory projectName ;;
  let workingDir := path_dirname path fullPath in
  let projectDirName := path_basename path fullPath in
  doP gitResponse <- PCall (PromptConfirm "createRepo"
                              "Vuoi creare anche un repository GitHub per questo progetto?"
                              true) PRet ;;
  let token := "" in
  doP repoUrl <- createRepoIfConfirmed projectDirName gitResponse ;;
  chainedRules angularVersion projectDirName workingDir fullPath repoUrl token.

(** ** Reading the orchestrator's runs *)

Definition prepend {A : Type} (t : list PEvent) (r : Run A) : Run A :=
  {| outcome := outcome r; events := t ++ events r; final_cwd := final_cwd r |}.

Definition outcome_of {A : Type} (c : Completion A) : Outcome A :=
  match c with
  | Normal a => Returned a
  | Abrupt e => Threw (JsThrown e)
  end.

(** An event of the resolver, as the orchestrator sees it in [cwd]. *)
Definition embed (cwd : string) (ev : Event) : PEvent :=
  match ev with
  | Requested url => Called (Http (get_request url)) cwd
  | Warned msg => Logged WarnLevel [Text msg]
  end.

(** The command lines executed, each with the directory it ran in. *)
Definition commands (t : list PEvent) : list (string * string) :=
  omap (fun ev => match ev with
                  | Called (ExecSync command dir) cwd => Some (command, default cwd dir)
                  | _ => None
                  end) t.

(** The HTTP requests made. *)
Definition http_requests (t : list PEvent) : list HttpRequest :=
  omap (fun ev => match ev with
                  | Called (Http req) _ => Some req
                  | _ => None
                  end) t.

(** What was printed on the console. *)
Definition console_output (t : list PEvent) : list (Level * list LogArg) :=
  omap (fun ev => match ev with
                  | Logged level args => Some (level, args)
                  | _ => None
                  end) t.

(** What [repos.some(repo => repo.name === repoName)] gives, [None] when
    the callback throws on a [null] element. *)
Fixpoint listed (repoName : string) (repos : list JsVal) : option bool :=
  match repos with
  | [] => Some false
  | repo :: rest =>
      if nullish repo then None
      else if strict_eq_string (read_prop repo "name") repoName then Some true
      else listed repoName rest
  end.

(** The line [checkIfRepoExists] prints for an error. *)
Definition listing_error_line (error : Thrown) : list LogArg :=
  [Text "Errore durante la verifica dell'esistenza del repository:"; MessageOf error].

(** What the [try] block of [checkIfRepoExists] gives on an answer. *)
Definition repo_check (o : HttpOutcome) (repoName : string) : bool + Thrown :=
  match o with
  | Rejected status => inr (AxiosError status)
  | Resolved (JArr repos) =>
      match listed repoName repos with
      | Some b => inl b
      | None => inr (JsThrown TypeError)
      end
  | Resolved _ => inr (JsThrown TypeError)
  end.

Definition exists_message (repoName : string) : string :=
  "Esiste gi" +:+ a_grave +:+ " un repository con il nome "
  +:+ dquote +:+ repoName +:+ dquote +:+ ".".

(** What the creation request gives in [createGitRepo] on an answer. *)
Definition created (o : HttpOutcome) : JsVal + Thrown :=
  match o with
  | Rejected status => inr (AxiosError status)
  | Resolved data =>
      if nullish data then inr (JsThrown TypeError)
      else if negb (truthy (read_prop data "clone_url"))
      then inr (ErrorOf "Failed to create GitHub repository")
      else inl (read_prop data "clone_url")
  end.

(** The line [createGitRepo] prints for an error before it rethrows it. *)
Definition creation_error_line (error : Thrown) : list LogArg :=
  if is_422 error
  then [Text ("Errore durante la creazione del repository: Repository gi"
              +:+ a_grave +:+ " esistente o nome non valido.")]
  else [Text "Errore durante la richiesta Axios:"; MessageOf error].

(** The answer of [checkIfRepoExists] in a world. *)
Definition repo_found (w : World) (repoName token : string) : bool :=
  match repo_check (http w (list_repos_request token)) repoName with
  | inl b => b
  | inr _ => false
  end.

(** ** The commands of [setupGitRepository] *)

Definition git_config_name : string :=
  "git config user.name " +:+ dquote +:+ "Your Name" +:+ dquote.

Definition git_config_email : string :=
  "git config user.email " +:+ dquote +:+ "your-email@example.com" +:+ dquote.

Definition git_remote_add (repoUrl token : string) : string :=
  "git remote add origin "
  +:+ String_replace repoUrl "https://" ("https://" +:+ token +:+ "@").

Definition git_commit : string :=
  "git commit -m " +:+ dquote +:+ "Initial commit" +:+ dquote.

Definition git_push : string := "git push -u origin master".

(** The commands in the order of the source, for a string [repoUrl]. *)
Definition git_script (repoUrl token : string) : list string :=
  ["git init"; git_config_name; git_config_email; git_remote_add repoUrl token;
   "git add ."; git_commit; git_push].

(** The project directory is there to work in: it exists or can be made,
    and the process can move into it. *)
Definition directory_ready (w : World) (projectPath : string) : bool :=
  (path_exists w projectPath || can_mkdir w projectPath) && can_chdir w projectPath.

(** The commands of a script that run when each failure ends the script:
    all up to the first that fails, that one included. *)
Fixpoint run_script (ok : string -> bool) (script : list string) : list string :=
  match script with
  | [] => []
  | command :: rest => command :: if ok command then run_script ok rest else []
  end.

(** The commands that [setupGitRepository] runs once it is in the project
    directory: the failure of the commit alone does not end the script, and a
    [repoUrl] that is not a string ends it before the remote is added. *)
Definition git_commands_run (ok : string -> bool) (repoUrl : JsVal) (token : string) :
    list string :=
  match repoUrl with
  | JStr s =>
      run_script ok ["git init"; git_config_name; git_config_email;
                     git_remote_add s token; "git add ."]
      ++ (if forallb ok ["git init"; git_config_name; git_config_email;
                         git_remote_add s token; "git add ."]
          then [git_commit; git_push] else [])
  | _ => run_script ok ["git init"; git_config_name; git_config_email]
  end.

(** No code unit of [s] is the dollar sign. *)
Fixpoint no_dollar (s : string) : bool :=
  match s with
  | EmptyString => true
  | String c s' => negb (Ascii.eqb c "$") && no_dollar s'
  end.

(** ** Example worlds *)

(** A machine on which GitHub answers the listing with [listing] and the
    creation with [creation], every command succeeds, GITHUB_TOKEN is set,
    and the user accepts the defaults. *)
Definition github_world (listing creation : HttpOutcome) : World :=
  {| http := fun req =>
       if decide (req_url req = repos_url)
       then (if decide (req_method req = "POST") then creation else listing)
       else Rejected None;
     run_command := fun _ _ => true;
     getenv := fun var => if decide (var = "GITHUB_TOKEN") then Some "ghp_example" else None;
     path_exists := fun _ => false;
     can_mkdir := fun _ => true;
     can_chdir := fun _ => true;
     answer_text := fun _ => Some "./";
     answer_confirm := fun _ => Some true |}.

Definition other_repo : JsVal := JObj [("name", JStr "other"); ("private", JBool false)].

Definition app_repo : JsVal :=
  JObj [("name", JStr "app"); ("clone_url", JStr "https://github.com/me/app.git")].

(** A machine like [github_world] on which the commit has nothing to commit
    and so fails. *)
Definition nothing_to_commit (w : World) : World :=
  {| http := http w;
     run_command := fun command dir =>
       if decide (command = git_commit) then false else run_command w command dir;
     getenv := getenv w;
     path_exists := path_exists w;
     can_mkdir := can_mkdir w;
     can_chdir := can_chdir w;
     answer_text := answer_text w;
     answer_confirm := answer_confirm w |}.

(** The environment variables read. *)
Definition env_reads (t : list PEvent) : list string :=
  omap (fun ev => match ev with
                  | Called (GetEnv var) _ => Some var
                  | _ => None
                  end) t.

(** ** The paths and command lines of [eggsNextSetup] *)

Definition target_directory_of (w : World) (options : Options) : option string :=
  if negb (truthy (JStr (default "" (target_directory options))))
  then answer_text w "targetDirectory"
  else Some (or_default (target_directory options) "./").

Definition full_path_of (path : PathModule) (w : World) (cwd : string)
    (options : Options) : option string :=
  match target_directory_of w options with
  | None => None
  | Some targetDirectory =>
      let projectName := or_default (project_name options) "my-angular-app" in
      Some (if path_isAbsolute path targetDirectory
            then path_join path targetDirectory projectName
            else path_resolve path cwd targetDirectory projectName)
  end.

Definition ng_new_line (projectDirName angularVersion : string) : string :=
  "npx " +:+ join_spaces (ng_new_args projectDirName angularVersion).

Definition npm_install_line (r : ResolutionResult) : string :=
  "npm " +:+ join_spaces ("install" :: packages r
                          ++ (if forceInstall r then ["--legacy-peer-deps"] else [])).

(** Everything [eggsNextSetup] can run, in order: the generator in the
    parent of the project directory, the install where the process is, and
    the git script, with an empty token, in the project directory. *)
Definition full_script (path : PathModule) (cwd fullPath angularVersion : string)
    (r : ResolutionResult) (repoUrl : string) : list (string * string) :=
  (ng_new_line (path_basename path fullPath) angularVersion, path_dirname path fullPath)
  :: (npm_install_line r, cwd)
  :: ((λ command, (command, fullPath)) <$> git_script repoUrl "").

(** A path module in the manner of POSIX for relative directories below the
    current one. *)
Definition example_path : PathModule :=
  {| path_isAbsolute := String.prefix "/";
     path_join := fun dir name => dir +:+ "/" +:+ name;
     path_resolve := fun cwd dir name => cwd +:+ "/" +:+ name;
     path_dirname := fun _ => "/home/me";
     path_basename := fun _ => "my-angular-app" |}.

Definition example_options : Options :=
  {| angular_version := Some "17.0.0"; project_name := None; target_directory := None |}.

(** A user who declines the repository. *)
Definition declining (w : World) : World :=
  {| http := http w;
     run_command := run_command w;
     getenv := getenv w;
     path_exists := path_exists w;
     can_mkdir := can_mkdir w;
     can_chdir := can_chdir w;
     answer_text := answer_text w;
     answer_confirm := fun _ => Some false |}.

(** A machine without GITHUB_TOKEN. *)
Definition without_token (w : World) : World :=
  {| http := http w;
     run_command := run_command w;
     getenv := fun _ => None;
     path_exists := path_exists w;
     can_mkdir := can_mkdir w;
     can_chdir := can_chdir w;
     answer_text := answer_text w;
     answer_confirm := answer_confirm w |}.

(** A machine on which the generator fails. *)
Definition failing_generator (w : World) : World :=
  {| http := http w;
     run_command := fun command dir =>
       if String.prefix "npx " command then false else run_command w command dir;
     getenv := getenv w;
     path_exists := path_exists w;
     can_mkdir := can_mkdir w;
     can_chdir := can_chdir w;
     answer_text := answer_text w;
     answer_confirm := answer_confirm w |}.

(** Closes a goal about a concrete registry by evaluation. *)
Ltac by_evaluation := vm_compute; reflexivity.

(** ** Laws of [run] *)

Section run_laws.
Context {A B : Type} (net : Registry).

Lemma run_bind (p : Prog A) (f : A -> Prog B) :
  run net (bind p f) =
    match run net p with
    | (Normal a, t) => let '(c, t') := run net (f a) in (c, t ++ t')
    | (Abrupt e, t) => (Abrupt e, t)
    end.
Proof.
  induction p as [a|e|url k IH|msg k IH]; simpl.
  - by destruct (run net (f a)).
  - done.
  - rewrite IH. destruct (run net (k (net url))) as [[a|e] t]; [|done].
    by destruct (run net (f a)).
  - rewrite IH. destruct (run net k) as [[a|e] t]; [|done].
    by destruct (run net (f a)).
Qed.

Lemma run_try_catch (p : Prog A) (h : JsError -> Prog A) :
  run net (try_catch p h) =
    match run net p with
    | (Normal a, t) => (Normal a, t)
    | (Abrupt e, t) => let '(c, t') := run net (h e) in (c, t ++ t')
    end.
Proof.
  induction p as [a|e|url k IH|msg k IH]; simpl.
  - done.
  - by destruct (run net (h e)).
  - rewrite IH. destruct (run net (k (net url))) as [[a|e] t]; [done|].
    by destruct (run net (h e)).
  - rewrite IH. destruct (run net k) as [[a|e] t]; [done|].
    by destruct (run net (h e)).
Qed.
End run_laws.

Lemma requests_of_app (t1 t2 : list Event) :
  requests_of (t1 ++ t2) = requests_of t1 ++ requests_of t2.
Proof. apply omap_app. Qed.

(** A loop whose body completes normally with a known state and known
    requests folds the state and makes the requests in order. *)
Lemma run_for_of_fold {A S : Type} (net : Registry) (body : S -> A -> Prog S)
    (f : S -> A -> S) (g : A -> list string) (l : list A) (s : S) :
  (∀ s x, ∃ t, run net (body s x) = (Normal (f s x), t) ∧ requests_of t = g x) →
  ∃ t, run net (for_of l body s) = (Normal (foldl f s l), t)
       ∧ requests_of t = mjoin (g <$> l).
Proof.
  intros Hbody. revert s. induction l as [|x l IH]; intros s; simpl.
  - by exists [].
  - destruct (Hbody s x) as (t1 & Hx & Hr1).
    destruct (IH (f s x)) as (t2 & Hl & Hr2).
    rewrite run_bind, Hx, Hl. exists (t1 ++ t2). split; [done|].
    by rewrite requests_of_app, Hr1, Hr2.
Qed.

(** What running against [net2] gives when it answers as [net1] did on
    every request the run against [net1] made. *)
Lemma run_agree {A : Type} (net1 net2 : Registry) (p : Prog A) :
  (∀ url, url ∈ requests_of (run net1 p).2 → net2 url = net1 url) →
  run net2 p = run net1 p.
Proof.
  induction p as [a|e|url k IH|msg k IH]; simpl; intros Hsame; [done|done| |].
  - destruct (run net1 (k (net1 url))) as [c t] eqn:Hk. simpl in Hsame.
    rewrite (Hsame url) by left. rewrite IH, Hk; [done|].
    intros u Hu. apply Hsame. rewrite Hk in Hu. by right.
  - destruct (run net1 k) as [c t] eqn:Hk. simpl in Hsame.
    by rewrite IH.
Qed.

(** ** Keys of arrays and strings are decimal indices *)

Lemma pretty_N_go_head (c : ascii) (x : N) (s s' : string) :
  not_a_digit c → s ≠ String c s' → pretty_N_go x s ≠ String c s'.
Proof.
  intros Hc. revert s. induction (N.lt_wf_0 x) as [x _ IH]; intros s Hs.
  assert (x = 0 ∨ 0 < x)%N as [->|Hpos] by lia.
  - by rewrite pretty_N_go_0.
  - rewrite pretty_N_go_step by done. apply IH.
    + by apply N.div_lt.
    + intros [= Heq _]. by apply Hc in Heq.
Qed.

Lemma index_key_head (c : ascii) (i : nat) (s' : string) :
  not_a_digit c → pretty i ≠ String c s'.
Proof.
  intros Hc. unfold pretty, pretty_nat, pretty, pretty_N. case_decide.
  - intros [= Heq _]. by apply (Hc 0%N).
  - by apply pretty_N_go_head.
Qed.

Lemma v_not_a_digit : not_a_digit "v".
Proof. intros n. unfold pretty_N_char. by repeat case_match. Qed.

Lemma p_not_a_digit : not_a_digit "p".
Proof. intros n. unfold pretty_N_char. by repeat case_match. Qed.

Lemma assoc_None {A : Type} (k : string) (l : list (string * A)) :
  (∀ x, (k, x) ∉ l) → assoc k l = None.
Proof.
  induction l as [|[k' x] l IH]; intros Hk; simpl; [done|].
  case_decide as Hkk.
  - subst. destruct (Hk x). left.
  - apply IH. intros y Hy. apply (Hk y). by right.
Qed.

Lemma assoc_Some_elem {A : Type} (k : string) (l : list (string * A)) (x : A) :
  assoc k l = Some x → (k, x) ∈ l.
Proof.
  induction l as [|[k' y] l IH]; simpl; [done|].
  case_decide; intros; simplify_eq; [left | right; auto].
Qed.

(** A primitive string has no property under a name that does not start
    with a digit, [length] apart. *)
Lemma string_lacks (s : string) (c : ascii) (k : string) :
  not_a_digit c → String c k ≠ "length" →
  read_prop (JStr s) (String c k) = JUndefined.
Proof.
  intros Hc Hk. unfold read_prop. case_decide; [done|]. simpl.
  rewrite assoc_None; [done|].
  intros x (i & a & Heq & _)%elem_of_lookup_imap_1. simplify_eq.
  by eapply index_key_head.
Qed.

Lemma string_has_no_versions (s : string) : read_prop (JStr s) "versions" = JUndefined.
Proof. by apply string_lacks; [apply v_not_a_digit|]. Qed.

(** ** Sorting by code units *)

Lemma head_Array_sort_None (l : list string) : head (Array_sort l) = None → l = [].
Proof.
  unfold Array_sort. intros Hd. apply Permutation_nil_r.
  rewrite <- (merge_sort_Permutation String.le l).
  by destruct (merge_sort _ l).
Qed.

Lemma head_Array_sort_least (l : list string) (m : string) :
  head (Array_sort l) = Some m →
  m ∈ l ∧ ∀ x, x ∈ l → String.leb m x = true.
Proof.
  unfold Array_sort. intros Hd.
  pose proof (StronglySorted_merge_sort String.le l) as Hs.
  pose proof (merge_sort_Permutation String.le l) as Hp.
  destruct (merge_sort String.le l) as [|y l']; simplify_eq/=.
  split.
  - rewrite <- Hp. left.
  - intros x Hx. rewrite <- Hp in Hx. apply StronglySorted_inv in Hs as [_ Hall].
    apply elem_of_cons in Hx as [->|Hx].
    + apply Is_true_true. by change (String.le m m).
    + apply Is_true_true. rewrite Forall_forall in Hall. by apply Hall.
Qed.

Lemma leb_empty_inv (m : string) : String.leb m "" = true → m = "".
Proof. by destruct m. Qed.

(** ** The result of [getCompatibleVersion], computed without effects *)

Lemma js_or_object_not_nullish (v : JsVal) : nullish (js_or v (JObj [])) = false.
Proof. unfold js_or. by destruct v as [| |[]|q|s|l|l]; simpl; try destruct (negb _). Qed.

Lemma run_declares_core (net : Registry) (versions : JsVal) (V v : string) :
  nullish versions = false →
  run net (declares_core versions V v) =
    if nullish (read_prop versions v) then (Abrupt TypeError, [])
    else (Normal (qualifies versions V v), []).
Proof.
  intros Hv. unfold declares_core, qualifies, declared_core, get.
  rewrite Hv. simpl. destruct (nullish (read_prop versions v)) eqn:He; simpl; [done|].
  by rewrite js_or_object_not_nullish.
Qed.

Lemma run_Array_filter (net : Registry) (versions : JsVal) (V : string)
    (keys : list string) :
  nullish versions = false →
  run net (Array_filter (declares_core versions V) keys) =
    if readable versions keys
    then (Normal (filter (λ v, qualifies versions V v = true) keys), [])
    else (Abrupt TypeError, []).
Proof.
  intros Hv. induction keys as [|k keys IH]; simpl; [done|].
  rewrite run_bind, run_declares_core by done.
  destruct (nullish (read_prop versions k)) eqn:Hk; simpl; [done|].
  rewrite run_bind, IH. destruct (readable versions keys); simpl; [|done].
  rewrite filter_cons. by destruct (qualifies versions V k); case_decide.
Qed.

Lemma run_getCompatibleVersion (net : Registry) (packageName V : string) :
  run net (getCompatibleVersion packageName V) =
    match net (package_url packageName) with
    | FetchOk data =>
        match resolve_listing data V with
        | Some v => (Normal v, [Requested (package_url packageName)])
        | None => (Normal "latest", [Requested (package_url packageName);
                                      Warned (version_warning packageName)])
        end
    | FetchFailed => (Normal "latest", [Requested (package_url packageName);
                                         Warned (version_warning packageName)])
    end.
Proof.
  unfold getCompatibleVersion, resolve_listing. rewrite run_try_catch, run_bind. simpl.
  destruct (net (package_url packageName)) as [|data]; simpl; [done|].
  destruct (String.eqb (typeof data) "object" && not_null data) eqn:Hobj; simpl; [|done].
  assert (nullish data = false) as Hd.
  { by destruct data. }
  rewrite run_bind. unfold get at 1. rewrite Hd. simpl.
  rewrite run_bind. unfold Object_keys.
  destruct (nullish (read_prop data "versions")) eqn:Hvs; simpl; [done|].
  rewrite run_bind, run_Array_filter by done. fold (published_versions data).
  by destruct (readable _ _).
Qed.

Lemma run_getCompatibleVersion_value (net : Registry) (packageName V : string) :
  ∃ t, run net (getCompatibleVersion packageName V)
       = (Normal (resolved_version_of (net (package_url packageName)) V), t)
       ∧ requests_of t = [package_url packageName].
Proof.
  rewrite run_getCompatibleVersion.
  destruct (net (package_url packageName)) as [|data]; simpl; [by eexists|].
  destruct (resolve_listing data V); by eexists.
Qed.

(** Only a non-null object can list versions. *)
Lemma published_versions_object (data : JsVal) (v : string) :
  v ∈ published_versions data →
  String.eqb (typeof data) "object" && not_null data = true
  ∧ nullish (read_prop data "versions") = false.
Proof.
  unfold published_versions. intros Hv. split.
  - destruct data as [| |b|q|s|l|l]; try done;
      try (by apply elem_of_nil in Hv).
    rewrite string_has_no_versions in Hv. by apply elem_of_nil in Hv.
  - destruct (read_prop data "versions"); try done; by apply elem_of_nil in Hv.
Qed.

Lemma qualifies_true (versions : JsVal) (V v : string) :
  qualifies versions V v = true ↔
  nullish (read_prop versions v) = false ∧ declared_core versions v = JStr V.
Proof.
  unfold qualifies. rewrite andb_true_iff, negb_true_iff.
  apply and_iff_compat_l. unfold strict_eq_string.
  destruct (declared_core versions v); try (split; [done | by intros [=]]).
  rewrite String.eqb_eq. split; [by intros -> | by intros [=]].
Qed.

Lemma readable_entries (data : JsVal) :
  readable (read_prop data "versions") (published_versions data) = true ↔
  entries_readable data.
Proof.
  unfold readable, entries_readable. rewrite forallb_forall. split.
  - intros H v Hv. apply negb_true_iff, H. by apply list_elem_of_In.
  - intros H v Hv. apply negb_true_iff, H. by apply list_elem_of_In.
Qed.

(** The versions that pass the filter are those [compatible_with] the target. *)
Lemma elem_of_compatible (data : JsVal) (V v : string) :
  v ∈ filter (λ v, qualifies (read_prop data "versions") V v = true)
             (published_versions data)
  ↔ compatible_with data V v.
Proof.
  rewrite list_elem_of_filter, qualifies_true. unfold compatible_with. tauto.
Qed.

Lemma resolve_listing_Some (data : JsVal) (V v : string) :
  resolve_listing data V = Some v → v = "latest" ∨ compatible_with data V v.
Proof.
  unfold resolve_listing.
  destruct (String.eqb (typeof data) "object" && not_null data); [|intros [= <-]; by left].
  simpl. destruct (nullish _); [done|]. destruct (readable _ _); [|done].
  intros [= <-]. unfold or_latest.
  destruct (head _) as [m|] eqn:Hm; [|by left].
  destruct (truthy (JStr m)); [|by left].
  right. apply head_Array_sort_least in Hm as [Hm _]. by apply elem_of_compatible.
Qed.

(** When the filter runs to its end and a version passes it, the block
    returns the least such version, or ['latest'] when that is empty. *)
Lemma resolve_listing_least (data : JsVal) (V v0 : string) :
  entries_readable data → compatible_with data V v0 →
  ∃ m, compatible_with data V m
       ∧ (∀ w, compatible_with data V w → String.leb m w = true)
       ∧ resolve_listing data V = Some (if decide (m = "") then "latest" else m).
Proof.
  intros Hr Hv0. unfold resolve_listing.
  destruct (published_versions_object data v0) as [-> ->]; [apply Hv0|]. simpl.
  apply readable_entries in Hr. rewrite Hr.
  destruct (head _) as [m|] eqn:Hm.
  - pose proof Hm as [Hin Hle]%head_Array_sort_least. exists m. split_and!.
    + by apply elem_of_compatible.
    + intros w Hw. by apply Hle, elem_of_compatible.
    + simpl. case_decide as Hmm; [by subst|]. by destruct m.
  - apply head_Array_sort_None in Hm. apply elem_of_compatible in Hv0.
    rewrite Hm in Hv0. by apply elem_of_nil in Hv0.
Qed.

(** A [versions] value that is not an object has no qualifying key. *)
Lemma primitive_versions_qualify_nothing (versions : JsVal) (V v : string) :
  typeof versions ≠ "object" → qualifies versions V v = false.
Proof.
  intros Ht. destruct versions as [| |b|q|s|l|l]; try done.
  unfold qualifies, declared_core.
  assert (read_prop (JStr s) v = JUndefined
          ∨ (∃ q, read_prop (JStr s) v = JNum q)
          ∨ (∃ c, read_prop (JStr s) v = JStr (String c ""))) as Hentry.
  { unfold read_prop. case_decide; [right; left; by eexists|].
    destruct (assoc v _) as [x|] eqn:Hx; [|by left].
    apply assoc_Some_elem in Hx. simpl in Hx.
    apply elem_of_lookup_imap_1 in Hx as (i & c & Heq & _). simplify_eq.
    right; right. by eexists. }
  destruct Hentry as [->|[[q ->]|[c ->]]]; [done|done|].
  rewrite string_lacks; [done|apply p_not_a_digit|done].
Qed.

Lemma resolve_listing_degenerate (data : JsVal) (V v : string) :
  resolve_listing data V = Some v → degenerate (FetchOk data) V → v = "latest".
Proof.
  intros Hres Hdeg. destruct (resolve_listing_Some _ _ _ Hres) as [|Hc]; [done|].
  destruct (published_versions_object data v) as [Hobj Hvs]; [apply Hc|].
  unfold resolve_listing in Hres. rewrite Hobj in Hres. simpl in Hres.
  rewrite Hvs in Hres. destruct (readable _ _) eqn:Hr; [|done].
  apply andb_true_iff in Hobj as [Hty Hnn]. apply String.eqb_eq in Hty.
  destruct Hdeg as [Hd|[->|[Hd|[Hd|[Hd|Hd]]]]]; try done.
  - destruct Hc as (_ & Hn & Hcore).
    pose proof (primitive_versions_qualify_nothing _ V v Hd) as Hq.
    assert (qualifies (read_prop data "versions") V v = true) as Hq'
      by (by apply qualifies_true).
    congruence.
  - by rewrite Hd in Hvs.
  - destruct Hd. by apply readable_entries.
  - apply elem_of_compatible in Hd.
    destruct (head _) as [m|] eqn:Hm; simplify_eq/=; [|done].
    apply head_Array_sort_least in Hm as [_ Hle].
    by rewrite (leb_empty_inv m (Hle _ Hd)).
Qed.

Lemma compatible_with_computed (data : JsVal) (V v : string) :
  bool_decide (v ∈ filter (λ v, qualifies (read_prop data "versions") V v = true)
                          (published_versions data)) = true →
  compatible_with data V v.
Proof. intros H%bool_decide_eq_true. by apply elem_of_compatible. Qed.

Lemma not_compatible_with_computed (data : JsVal) (V v : string) :
  bool_decide (v ∈ filter (λ v, qualifies (read_prop data "versions") V v = true)
                          (published_versions data)) = false →
  ¬ compatible_with data V v.
Proof. intros H%bool_decide_eq_false Hc. by apply H, elem_of_compatible. Qed.

(** ** Claims about [getCompatibleVersion] *)

(** Of the qualifying versions "10.0.0" and "2.0.0", the first is returned. *)
Example ten_before_two :
  run (only "primeng" primeng_listing) (getCompatibleVersion "primeng" "17.0.0")
  = (Normal "10.0.0", [Requested "https://registry.npmjs.org/primeng"]).
Proof. by_evaluation. Qed.

(** A range that the target satisfies is not a match: only the identical
    string is. *)
Example range_is_not_matched :
  run (only "primeng" primeng_listing) (getCompatibleVersion "primeng" "16.0.0")
  = (Normal "latest", [Requested "https://registry.npmjs.org/primeng"]).
Proof. by_evaluation. Qed.

(** C6: the version [getCompatibleVersion] resolves is either the literal
    "latest" or a key of the fetched listing whose declared peer dependency on
    "@angular/core" is the target version itself, as the same string: the
    filter compares with [===] and matches no range. *)
Theorem resolved_version_latest_or_exact_match (net : Registry) (packageName V : string) :
  ∃ v t, run net (getCompatibleVersion packageName V) = (Normal v, t)
         ∧ (v = "latest"
            ∨ ∃ data, net (package_url packageName) = FetchOk data
                      ∧ v ∈ published_versions data
                      ∧ declared_core (read_prop data "versions") v = JStr V).
Proof.
  rewrite run_getCompatibleVersion.
  destruct (net (package_url packageName)) as [|data]; [eexists _, _; by eauto|].
  destruct (resolve_listing data V) as [v|] eqn:Hres; [|eexists _, _; by eauto].
  exists v. eexists. split; [done|].
  apply resolve_listing_Some in Hres as [->|(Hin & _ & Hcore)]; [by left|].
  right. by exists data.
Qed.

(** C3: when the fetch of the listing fails, or the listing has no version
    whose peer dependency on the framework core equals the target version,
    [getCompatibleVersion] resolves to the literal "latest". *)
Theorem no_compatible_version_gives_latest (net : Registry) (packageName V : string) :
  (net (package_url packageName) = FetchFailed
   ∨ ∃ data, net (package_url packageName) = FetchOk data
             ∧ ∀ v, ¬ compatible_with data V v) →
  ∃ t, run net (getCompatibleVersion packageName V) = (Normal "latest", t).
Proof.
  rewrite run_getCompatibleVersion. intros [->|(data & -> & Hnone)]; [by eexists|].
  destruct (resolve_listing data V) as [v|] eqn:Hres; [|by eexists].
  apply resolve_listing_Some in Hres as [->|Hc]; [by eexists|].
  by destruct (Hnone v).
Qed.

Lemma no_compatible_version_gives_latest_witness :
  (∃ t, run (only "primeng" primeng_listing) (getCompatibleVersion "rxjs" "17.0.0")
        = (Normal "latest", t))
  ∧ (∃ t, run (only "primeng" primeng_listing) (getCompatibleVersion "primeng" "15.0.0")
          = (Normal "latest", t)).
Proof.
  split.
  - apply (no_compatible_version_gives_latest (only "primeng" primeng_listing)
             "rxjs" "17.0.0").
    left. reflexivity.
  - apply (no_compatible_version_gives_latest (only "primeng" primeng_listing)
             "primeng" "15.0.0").
    right. exists primeng_listing. split; [reflexivity|].
    intros v (Hin & _ & Hcore).
    apply list_elem_of_In in Hin. simpl in Hin.
    destruct Hin as [<-|[<-|[<-|[]]]]; vm_compute in Hcore; discriminate Hcore.
Defined.

(** C2, as the code has it: when the listing is fetched, none of its entries
    is [null], and at least one version (so also when more than one)
    qualifies, [getCompatibleVersion] returns the qualifying version that is
    least in the code-unit order of strings, except that it returns "latest"
    when that least version is the empty string. *)
Theorem least_compatible_version_or_latest (net : Registry) (packageName V : string)
    (data : JsVal) (v0 : string) :
  net (package_url packageName) = FetchOk data →
  entries_readable data →
  compatible_with data V v0 →
  ∃ m, compatible_with data V m
       ∧ (∀ w, compatible_with data V w → String.leb m w = true)
       ∧ run net (getCompatibleVersion packageName V)
         = (Normal (if decide (m = "") then "latest" else m),
            [Requested (package_url packageName)]).
Proof.
  intros Hnet Hr Hv0. rewrite run_getCompatibleVersion, Hnet.
  destruct (resolve_listing_least data V v0 Hr Hv0) as (m & Hm & Hle & ->).
  by exists m.
Qed.

Lemma least_compatible_version_or_latest_witness :
  ∃ m, compatible_with primeng_listing "17.0.0" m
       ∧ (∀ w, compatible_with primeng_listing "17.0.0" w → String.leb m w = true)
       ∧ run (only "primeng" primeng_listing) (getCompatibleVersion "primeng" "17.0.0")
         = (Normal (if decide (m = "") then "latest" else m),
            [Requested (package_url "primeng")]).
Proof.
  apply (least_compatible_version_or_latest (only "primeng" primeng_listing)
           "primeng" "17.0.0" primeng_listing "2.0.0").
  - reflexivity.
  - apply readable_entries. by_evaluation.
  - apply compatible_with_computed. by_evaluation.
Defined.

(** C2 as stated fails on the code.  In [empty_key_listing] two versions
    qualify and the least of them is the empty string, yet the result is
    "latest", which is no version of the listing; in [null_entry_listing] two
    versions qualify, the filter throws on the [null] entry, and the result is
    again "latest". *)
Lemma least_version_not_returned :
  (compatible_with empty_key_listing "17.0.0" ""
   ∧ compatible_with empty_key_listing "17.0.0" "1.0.0"
   ∧ (∀ w, compatible_with empty_key_listing "17.0.0" w → String.leb "" w = true)
   ∧ ¬ compatible_with empty_key_listing "17.0.0" "latest"
   ∧ run (only "primeng" empty_key_listing) (getCompatibleVersion "primeng" "17.0.0")
     = (Normal "latest", [Requested "https://registry.npmjs.org/primeng"]))
  ∧ (compatible_with null_entry_listing "17.0.0" "1.0.0"
     ∧ compatible_with null_entry_listing "17.0.0" "2.0.0"
     ∧ ¬ compatible_with null_entry_listing "17.0.0" "latest"
     ∧ run (only "primeng" null_entry_listing) (getCompatibleVersion "primeng" "17.0.0")
       = (Normal "latest",
          [Requested "https://registry.npmjs.org/primeng";
           Warned "Could not fetch version for primeng, using 'latest'"])).
Proof.
  split; split_and!;
    try (apply compatible_with_computed; by_evaluation);
    try (apply not_compatible_with_computed; by_evaluation);
    try by_evaluation.
  intros w _. by destruct w.
Qed.

Lemma assoc_imap_index {A : Type} (f : nat → string) (l : list A) (i : nat) (x : A) :
  Inj (=) (=) f → l !! i = Some x → assoc (f i) (imap (λ j y, (f j, y)) l) = Some x.
Proof.
  intros Hinj. revert f Hinj i. induction l as [|y l IH]; intros f Hinj i Hi; [done|].
  cbn [imap assoc]. destruct i as [|i].
  - rewrite decide_True by done. by simplify_eq/=.
  - rewrite decide_False by (by intros ?%Hinj).
    apply (IH (f ∘ S)); [|done]. intros j1 j2 Hj. apply Hinj in Hj. by simplify_eq.
Qed.

(** [elems[i]] read through the key that [Object.keys] gives for it. *)
Lemma array_index_read (elems : list JsVal) (i : nat) (entry : JsVal) :
  elems !! i = Some entry → read_prop (JArr elems) (pretty i) = entry.
Proof.
  intros Hi. unfold read_prop. rewrite decide_False.
  - cbn [own_props]. by rewrite (assoc_imap_index pretty elems i entry _ Hi).
  - apply index_key_head. intros n. unfold pretty_N_char. by repeat case_match.
Qed.

(** C10: [getCompatibleVersion] always completes normally with a string,
    whatever the registry answers, and that string is "latest" whenever the
    fetch fails or the document is degenerate: data that is not an object or
    is [null], a [versions] that is missing, [null] or not an object (a
    boolean, a number, a string), a [null] entry in it, or a qualifying
    version that is the empty string.  A [versions] that is an array is read
    as a listing: the result is then "latest" or the index of an element that
    declares the target version. *)
Theorem getCompatibleVersion_total (net : Registry) (packageName V : string) :
  ∃ s t, run net (getCompatibleVersion packageName V) = (Normal s, t)
         ∧ (degenerate (net (package_url packageName)) V → s = "latest")
         ∧ ∀ data elems,
             net (package_url packageName) = FetchOk data →
             read_prop data "versions" = JArr elems →
             s = "latest"
             ∨ ∃ (i : nat) entry,
                 s = pretty i ∧ elems !! i = Some entry
                 ∧ read_prop (js_or (read_prop entry "peerDependencies") (JObj []))
                             "@angular/core" = JStr V.
Proof.
  rewrite run_getCompatibleVersion.
  destruct (net (package_url packageName)) as [|data]; [by eexists _, _|].
  destruct (resolve_listing data V) as [v|] eqn:Hres;
    [|eexists _, _; split_and!; [done|done|by left]].
  exists v. eexists. split; [done|]. split; [by apply resolve_listing_degenerate|].
  intros ? elems [= <-] Helems.
  apply resolve_listing_Some in Hres as [->|(Hin & _ & Hcore)]; [by left|]. right.
  unfold published_versions in Hin. rewrite Helems in Hin, Hcore.
  apply list_elem_of_fmap in Hin as ([k entry] & -> & Hin). cbn [fst] in *.
  apply elem_of_lookup_imap in Hin as (i & y & [= -> ->] & Hi).
  exists i, y. split; [done|]. split; [done|].
  unfold declared_core in Hcore.
  by rewrite (array_index_read elems i y Hi) in Hcore.
Qed.

(** C10 as stated fails on the code for a malformed [versions]: when it is
    an array, [Object.keys] gives the indices, the element at index 1 declares
    the target version, and the result is "1", not "latest". *)
Lemma array_versions_gives_an_index :
  typeof (read_prop array_versions_listing "versions") = "object"
  ∧ published_versions array_versions_listing = ["0"; "1"]
  ∧ run (only "primeng" array_versions_listing) (getCompatibleVersion "primeng" "17.0.0")
    = (Normal "1", [Requested "https://registry.npmjs.org/primeng"]).
Proof. split_and!; by_evaluation. Qed.

(** ** The conflict map *)

Lemma Map_get_set_eq (m : JsMap) (k : string) (s : JsSet) :
  Map_get (Map_set m k s) k = Some s.
Proof.
  unfold Map_get. induction m as [|[k' s'] m IH]; simpl.
  - by rewrite decide_True.
  - case_decide; simpl; [by rewrite decide_True | by rewrite decide_False].
Qed.

Lemma Map_get_set_ne (m : JsMap) (k k' : string) (s : JsSet) :
  k ≠ k' → Map_get (Map_set m k s) k' = Map_get m k'.
Proof.
  unfold Map_get. intros Hne. induction m as [|[k0 s0] m IH]; simpl.
  - by rewrite decide_False.
  - case_decide; simpl; subst.
    + by rewrite !decide_False.
    + by rewrite IH.
Qed.

Lemma Map_set_keys (m : JsMap) (k : string) (s : JsSet) :
  (Map_set m k s).*1 = if Map_has m k then m.*1 else m.*1 ++ [k].
Proof.
  unfold Map_has, Map_get. induction m as [|[k' s'] m IH]; [done|].
  simpl Map_set. simpl assoc. case_decide.
  - by subst.
  - rewrite !fmap_cons, IH. by destruct (assoc k m).
Qed.

Lemma Map_get_None_keys (m : JsMap) (k : string) :
  Map_get m k = None → k ∉ m.*1.
Proof.
  unfold Map_get. induction m as [|[k' s'] m IH]; simpl; [by intros _ ?%elem_of_nil|].
  case_decide; [done|]. intros Hm [->|Hin]%elem_of_cons; [done|]. by apply IH.
Qed.

Lemma Map_get_elem (m : JsMap) (k : string) (s : JsSet) :
  NoDup m.*1 → (k, s) ∈ m → Map_get m k = Some s.
Proof.
  unfold Map_get. induction m as [|[k' s'] m IH]; simpl; [by intros _ ?%elem_of_nil|].
  intros [Hk' Hnd]%NoDup_cons [[= -> ->]|Hin]%elem_of_cons.
  - by rewrite decide_True.
  - rewrite decide_False; [by apply IH|].
    intros ->. apply Hk'. apply list_elem_of_fmap. by exists (k, s).
Qed.

Lemma Map_set_wf (m : JsMap) (k : string) (s : JsSet) :
  Map_wf m → NoDup s → Map_wf (Map_set m k s).
Proof.
  intros [Hkeys Hsets] Hs. split.
  - rewrite Map_set_keys. unfold Map_has.
    destruct (Map_get m k) eqn:Hk; [done|].
    apply NoDup_app. split_and!; [done| |apply NoDup_singleton].
    intros x Hx ->%list_elem_of_singleton. by apply (Map_get_None_keys m k).
  - intros k' s' Hget. destruct (decide (k = k')) as [<-|Hne].
    + rewrite Map_get_set_eq in Hget. by simplify_eq.
    + rewrite Map_get_set_ne in Hget by done. by eapply Hsets.
Qed.

Lemma Set_add_NoDup (s : JsSet) (v : string) : NoDup s → NoDup (Set_add s v).
Proof.
  unfold Set_add. intros Hs. case_decide; [done|].
  apply NoDup_app. split_and!; [done| |apply NoDup_singleton].
  by intros x Hx ->%list_elem_of_singleton.
Qed.

Lemma elem_of_Set_add (s : JsSet) (v x : string) :
  x ∈ Set_add s v ↔ x ∈ s ∨ x = v.
Proof.
  unfold Set_add. case_decide.
  - split; [by left|]. by intros [?| ->].
  - rewrite elem_of_app, list_elem_of_singleton. tauto.
Qed.

(** Registering a name keeps what is recorded. *)
Lemma recorded_register (m : JsMap) (d k spec : string) :
  recorded (if negb (Map_has m d) then Map_set m d [] else m) k spec
  ↔ recorded m k spec.
Proof.
  unfold Map_has, recorded. destruct (Map_get m d) eqn:Hd; simpl; [done|].
  destruct (decide (d = k)) as [<-|Hne].
  - rewrite Map_get_set_eq, Hd. split; intros (s & Hs & Hin); simplify_eq.
    by apply elem_of_nil in Hin.
  - by rewrite Map_get_set_ne.
Qed.

Lemma register_wf (m : JsMap) (d : string) :
  Map_wf m → Map_wf (if negb (Map_has m d) then Map_set m d [] else m).
Proof.
  intros Hwf. destruct (negb (Map_has m d)); [|done].
  apply Map_set_wf; [done|apply NoDup_nil_2].
Qed.

Lemma register_has (m : JsMap) (d : string) :
  is_Some (Map_get (if negb (Map_has m d) then Map_set m d [] else m) d).
Proof.
  unfold Map_has. destruct (Map_get m d) eqn:Hd; simpl; [by rewrite Hd|].
  by rewrite Map_get_set_eq.
Qed.

(** What one entry of a peer-dependency object adds to the map: its value
    under its name when the value is a string, and nothing otherwise. *)
Lemma recorded_recordPeerDependency (m : JsMap) (d : string) (x : JsVal)
    (k spec : string) :
  recorded (recordPeerDependency m (d, x)) k spec
  ↔ recorded m k spec ∨ (k = d ∧ x = JStr spec).
Proof.
  unfold recordPeerDependency.
  pose proof (recorded_register m d k spec) as Hreg.
  pose proof (register_has m d) as [vs Hvs].
  set (m1 := if negb (Map_has m d) then Map_set m d [] else m) in *.
  destruct x as [| |b|q|s|l|l];
    try (rewrite Hreg; split; [by left | by intros [?|[_ [=]]]]).
  rewrite Hvs, <- Hreg. unfold recorded.
  destruct (decide (d = k)) as [<-|Hne].
  - rewrite Map_get_set_eq, Hvs. split.
    + intros (s' & [= <-] & [Hin| ->]%elem_of_Set_add); [left; by eexists|by right].
    + intros [(s' & [= <-] & Hin)|[_ [= ->]]];
        (eexists; split; [done|]); apply elem_of_Set_add; first [by left | by right].
  - rewrite Map_get_set_ne by done. split; [by left|]. by intros [?|[-> _]].
Qed.

Lemma recordPeerDependency_wf (m : JsMap) (e : string * JsVal) :
  Map_wf m → Map_wf (recordPeerDependency m e).
Proof.
  intros Hwf. destruct e as [d x]. unfold recordPeerDependency.
  pose proof (register_wf m d Hwf) as Hwf1.
  set (m1 := if negb (Map_has m d) then Map_set m d [] else m) in *.
  destruct x; try done.
  destruct (Map_get m1 d) as [vs|] eqn:Hvs; [|done].
  apply Map_set_wf; [done|]. apply Set_add_NoDup. by eapply Hwf1.
Qed.

Lemma recorded_foldl (entries : list (string * JsVal)) (m : JsMap) (k spec : string) :
  recorded (foldl recordPeerDependency m entries) k spec
  ↔ recorded m k spec ∨ (k, JStr spec) ∈ entries.
Proof.
  revert m. induction entries as [|[d x] entries IH]; intros m; cbn [foldl].
  - split; [by left|]. by intros [?|?%elem_of_nil].
  - rewrite IH, recorded_recordPeerDependency, elem_of_cons. split.
    + intros [[?|[-> ->]]|?]; auto.
    + intros [?|[[= -> ->]|?]]; auto.
Qed.

Lemma foldl_recordPeerDependency_wf (entries : list (string * JsVal)) (m : JsMap) :
  Map_wf m → Map_wf (foldl recordPeerDependency m entries).
Proof.
  revert m. induction entries as [|e entries IH]; intros m Hwf; cbn [foldl]; [done|].
  by apply IH, recordPeerDependency_wf.
Qed.

Lemma has_conflict_iff (m : JsMap) :
  Map_wf m →
  has_conflict m = true
  ↔ ∃ k s1 s2, s1 ≠ s2 ∧ recorded m k s1 ∧ recorded m k s2.
Proof.
  intros [Hkeys Hsets]. unfold has_conflict. rewrite existsb_exists. split.
  - intros ([k s] & Hin%list_elem_of_In & Hlen%Nat.ltb_lt). simpl in Hlen.
    pose proof (Map_get_elem m k s Hkeys Hin) as Hget.
    pose proof (Hsets k s Hget) as Hnd.
    destruct s as [|a [|b s]]; simpl in Hlen; [lia|lia|].
    exists k, a, b. split_and!.
    + intros ->. apply NoDup_cons in Hnd as [Ha _]. apply Ha. left.
    + exists (a :: b :: s). split; [done|left].
    + exists (a :: b :: s). split; [done|right; left].
  - intros (k & s1 & s2 & Hne & (s & Hget & H1) & (s' & Hget' & H2)).
    simplify_eq. exists (k, s). split.
    + by apply list_elem_of_In, assoc_Some_elem.
    + apply Nat.ltb_lt. simpl.
      destruct s as [|a [|b s]]; simpl; [by apply elem_of_nil in H1| |lia].
      apply list_elem_of_singleton in H1, H2. congruence.
Qed.

Lemma Map_wf_empty : Map_wf [].
Proof. split; [apply NoDup_nil_2|done]. Qed.

Lemma Map_set_fresh (m : JsMap) (k : string) (s : JsSet) :
  Map_get m k = None → Map_set m k s = m ++ [(k, s)].
Proof.
  unfold Map_get. induction m as [|[k' s'] m IH]; simpl; [done|].
  case_decide; [done|]. intros Hm. by rewrite IH.
Qed.

Lemma has_conflict_app (m1 m2 : JsMap) :
  has_conflict (m1 ++ m2) = has_conflict m1 || has_conflict m2.
Proof. apply existsb_app. Qed.

Lemma run_reportConflict (net : Registry) (m : JsMap) (b : bool) :
  ∃ t, run net (for_of m reportConflict b) = (Normal (b || has_conflict m), t)
       ∧ requests_of t = [].
Proof.
  revert b. induction m as [|[k s] m IH]; intros b; simpl.
  - exists []. by rewrite orb_false_r.
  - rewrite run_bind. unfold has_conflict. simpl.
    destruct (1 <? length s)%nat; simpl.
    + destruct (IH true) as (t & -> & Hr). eexists. split.
      * by rewrite orb_true_r.
      * done.
    + destruct (IH b) as (t & -> & Hr). by eexists.
Qed.

(** ** The result of [getPeerDependencies] and of one loop step *)

Lemma run_getPeerDependencies (net : Registry) (packageName version : string) :
  run net (getPeerDependencies packageName version) =
    (Normal (peer_dependencies_of (net (version_url packageName version))),
     Requested (version_url packageName version)
     :: if peer_read_throws (net (version_url packageName version))
        then [Warned (peer_warning packageName version)] else []).
Proof.
  unfold getPeerDependencies. rewrite run_try_catch, run_bind. simpl.
  destruct (net (version_url packageName version)) as [|data]; simpl; [done|].
  destruct (String.eqb (typeof data) "object"); simpl; [|done].
  rewrite run_bind. unfold get. by destruct (nullish data).
Qed.

Lemma peer_dependencies_not_nullish (r : FetchResult) :
  nullish (peer_dependencies_of r) = false.
Proof.
  destruct r as [|data]; simpl; [done|].
  destruct (_ && _); [apply js_or_object_not_nullish|done].
Qed.

Lemma run_resolveStep (net : Registry) (V : string) (st : ResolverState)
    (pkg : PackageRequest) :
  ∃ t, run net (resolveStep V st pkg) = (Normal (next_state net V st pkg), t)
       ∧ requests_of t = step_requests net V pkg.
Proof.
  unfold resolveStep.
  destruct (run_getCompatibleVersion_value net (name pkg) V) as (t1 & Hv & Hr1).
  rewrite run_bind, Hv, run_bind, run_getPeerDependencies, run_bind.
  unfold Object_entries. rewrite peer_dependencies_not_nullish. simpl.
  eexists. split; [done|].
  rewrite requests_of_app, Hr1. unfold step_requests. simpl.
  by destruct (peer_read_throws _).
Qed.

(** ** The result of [resolveDependencies] *)

Lemma foldl_next_state (net : Registry) (V : string) (l : list PackageRequest)
    (st : ResolverState) :
  foldl (next_state net V) st l =
    {| resolvedPackages := resolvedPackages st ++ (specifier net V <$> l);
       compatibilityMap :=
         foldl recordPeerDependency (compatibilityMap st) (mjoin (peer_entries net V <$> l)) |}.
Proof.
  revert st. induction l as [|pkg l IH]; intros st; cbn [foldl fmap list_fmap mjoin list_join].
  - rewrite app_nil_r. by destruct st.
  - rewrite IH. cbn [next_state resolvedPackages compatibilityMap].
    by rewrite <- app_assoc, foldl_app.
Qed.

Lemma run_resolveDependenciesOf (net : Registry) (requests : list PackageRequest)
    (V : string) :
  ∃ t, run net (resolveDependenciesOf requests V) =
         (Normal {| packages := ("@schematics/angular@" +:+ V)
                                :: (specifier net V <$> requests);
                    forceInstall :=
                      has_conflict (foldl recordPeerDependency []
                                      (mjoin (peer_entries net V <$> requests))) |}, t)
       ∧ requests_of t = mjoin (step_requests net V <$> requests).
Proof.
  unfold resolveDependenciesOf. fold (initial_state V).
  destruct (run_for_of_fold net (resolveStep V) (next_state net V) (step_requests net V)
              requests (initial_state V) (run_resolveStep net V)) as (t1 & Hloop & Hr1).
  rewrite run_bind, Hloop, foldl_next_state. cbn [compatibilityMap resolvedPackages initial_state].
  destruct (run_reportConflict net
              (foldl recordPeerDependency [] (mjoin (peer_entries net V <$> requests)))
              false) as (t2 & Hscan & Hr2).
  rewrite run_bind, Hscan. cbn [run]. eexists. split; [reflexivity|].
  by rewrite !requests_of_app, Hr1, Hr2, !app_nil_r.
Qed.

Lemma resolves_as_specifier (net : Registry) (V : string) (pkg : PackageRequest) :
  resolves_as net V pkg (specifier net V pkg).
Proof.
  destruct (run_getCompatibleVersion_value net (name pkg) V) as (t & Hv & _).
  by eexists _, _.
Qed.

(** [Object.entries(x || {})] are the entries of [x]: a falsy value has
    none. *)
Lemma own_props_js_or (x : JsVal) : own_props (js_or x (JObj [])) = own_props x.
Proof.
  unfold js_or. destruct (truthy x) eqn:Hx; [done|].
  destruct x as [| |b|q|s|l|l]; try done. simpl in Hx.
  apply negb_false_iff, String.eqb_eq in Hx. by subst.
Qed.

(** The entries that the loop records for [pkg] are those that the registry
    declares for it. *)
Lemma declares_peer_entries (net : Registry) (V : string) (pkg : PackageRequest)
    (depName : string) (x : JsVal) :
  declares_peer net V pkg depName x ↔ (depName, x) ∈ peer_entries net V pkg.
Proof.
  unfold declares_peer, peer_entries, peer_dependencies_of.
  destruct (net (version_url _ _)) as [|data].
  - split; [by intros (? & [=] & _) | by intros ?%elem_of_nil].
  - split.
    + intros (? & [= <-] & Hobj & Hin). rewrite Hobj, String.eqb_refl. cbn [andb].
      destruct (nullish data) eqn:Hnull; cbn [negb].
      * by destruct data.
      * by rewrite own_props_js_or.
    + destruct (String.eqb (typeof data) "object") eqn:Hobj; cbn [andb];
        [|by intros ?%elem_of_nil].
      apply String.eqb_eq in Hobj.
      destruct (nullish data); cbn [negb]; [by intros ?%elem_of_nil|].
      rewrite own_props_js_or. intros Hin. by exists data.
Qed.

Lemma observed_entries (net : Registry) (V : string) (requests : list PackageRequest)
    (depName spec : string) :
  observed net V requests depName spec
  ↔ (depName, JStr spec) ∈ mjoin (peer_entries net V <$> requests).
Proof.
  unfold observed. rewrite list_elem_of_join. split.
  - intros (pkg & Hin & Hd%declares_peer_entries).
    exists (peer_entries net V pkg). split; [done|].
    apply list_elem_of_fmap. by exists pkg.
  - intros (l & Hin & (pkg & -> & Hpkg)%list_elem_of_fmap).
    exists pkg. split; [done|]. by apply declares_peer_entries.
Qed.

(** ** Claims about [resolveDependencies] *)

Example zone_conflict_forces_install :
  (run (zone_registry "~0.14.0") (resolveDependencies "17.0.0")).1
  = Normal {| packages := ["@schematics/angular@17.0.0"; "rxjs@latest"; "primeng@10.0.0";
                           "primeflex@latest"; "keycloak-js@latest";
                           "keycloak-angular@latest"];
              forceInstall := true |}.
Proof. by_evaluation. Qed.

Example zone_agreement_does_not_force :
  (run (zone_registry "~0.11.0") (resolveDependencies "17.0.0")).1
  = Normal {| packages := ["@schematics/angular@17.0.0"; "rxjs@latest"; "primeng@10.0.0";
                           "primeflex@latest"; "keycloak-js@latest";
                           "keycloak-angular@latest"];
              forceInstall := false |}.
Proof. by_evaluation. Qed.

(** C1: for every batch of requests, [resolveDependencies] completes with a
    result whose [forceInstall] is true exactly when the registry declares,
    for the resolved versions of the packages of the batch, some
    peer-dependency name with two different version-spec strings: two
    packages that declare different specs for a name make it true, and
    agreement on every name makes it false. *)
Theorem forceInstall_iff_conflict (net : Registry) (requests : list PackageRequest)
    (V : string) :
  ∃ r t, run net (resolveDependenciesOf requests V) = (Normal r, t)
         ∧ (forceInstall r = true
            ↔ ∃ depName spec1 spec2,
                spec1 ≠ spec2
                ∧ observed net V requests depName spec1
                ∧ observed net V requests depName spec2).
Proof.
  destruct (run_resolveDependenciesOf net requests V) as (t & Hrun & _).
  eexists _, t. split; [done|]. cbn [forceInstall].
  rewrite has_conflict_iff by apply foldl_recordPeerDependency_wf, Map_wf_empty.
  assert (∀ k spec,
    recorded (foldl recordPeerDependency [] (mjoin (peer_entries net V <$> requests))) k spec
    ↔ observed net V requests k spec) as Hrec.
  { intros k spec. rewrite recorded_foldl, observed_entries. split; [|by right].
    by intros [(s & [=] & _)|?]. }
  split; intros (k & s1 & s2 & Hne & H1 & H2); exists k, s1, s2;
    (split; [done|]); split; by apply Hrec.
Qed.

(** C5: for every target version and every list of N requests, the
    [packages] of the result has N+1 entries: first the generator package
    "@schematics/angular" pinned to the target version, then one specifier
    per request, in request order, each with the version resolved for that
    request; and every registry request made concerns a package of the list,
    so the generator is never looked up for its own sake. *)
Theorem packages_generator_then_requests (net : Registry)
    (requests : list PackageRequest) (V : string) :
  ∃ r t rest,
    run net (resolveDependenciesOf requests V) = (Normal r, t)
    ∧ packages r = ("@schematics/angular@" +:+ V) :: rest
    ∧ length (packages r) = S (length requests)
    ∧ Forall2 (resolves_as net V) requests rest
    ∧ ∀ url, url ∈ requests_of t →
        ∃ pkg, pkg ∈ requests
               ∧ (url = package_url (name pkg)
                  ∨ ∃ version, url = version_url (name pkg) version).
Proof.
  destruct (run_resolveDependenciesOf net requests V) as (t & Hrun & Hreq).
  eexists _, t, _. split; [done|]. cbn [packages]. split_and!.
  - done.
  - by rewrite length_cons, length_fmap.
  - apply Forall2_fmap_r, Forall_Forall2_diag, Forall_forall.
    intros pkg _. apply resolves_as_specifier.
  - intros url Hurl. rewrite Hreq in Hurl.
    apply list_elem_of_join in Hurl as (l & Hin & (pkg & -> & Hpkg)%list_elem_of_fmap).
    exists pkg. split; [done|]. unfold step_requests in Hin.
    apply elem_of_cons in Hin as [->|Hin]; [by left|].
    apply list_elem_of_singleton in Hin as ->. right. by eexists.
Qed.

(** C4: whatever fetches fail, [resolveDependencies] completes normally
    with a result: every request of the list, also those after a package whose
    fetch failed, has its specifier in [packages], in order, and the
    specifier of a package whose listing fetch failed is "name@latest". *)
Theorem fetch_failure_does_not_abort (net : Registry)
    (requests : list PackageRequest) (V : string) :
  ∃ r t, run net (resolveDependenciesOf requests V) = (Normal r, t)
         ∧ Forall2 (λ pkg entry,
              resolves_as net V pkg entry
              ∧ (net (package_url (name pkg)) = FetchFailed →
                 entry = name pkg +:+ "@latest"))
             requests (tail (packages r)).
Proof.
  destruct (run_resolveDependenciesOf net requests V) as (t & Hrun & _).
  eexists _, t. split; [done|]. cbn [packages tail].
  apply Forall2_fmap_r, Forall_Forall2_diag, Forall_forall.
  intros pkg _. split; [apply resolves_as_specifier|].
  intros Hfail. unfold specifier. by rewrite Hfail.
Qed.

(** C7: the result of [resolveDependencies] is a function of two registry
    answers per package, the listing of the package and the document of the
    version that the listing resolves to.  Two invocations for the same
    target version whose registries answer these two requests alike, for
    every package of the batch, complete with the identical result (the same
    [packages] in the same order and the same [forceInstall]) after the same
    requests and warnings, however the registries differ elsewhere: nothing
    else is read, and nothing is kept from one invocation to the next. *)
Theorem same_responses_same_result (net1 net2 : Registry)
    (requests : list PackageRequest) (V : string) :
  (∀ pkg, pkg ∈ requests →
     net2 (package_url (name pkg)) = net1 (package_url (name pkg))
     ∧ net2 (version_url (name pkg)
               (resolved_version_of (net1 (package_url (name pkg))) V))
       = net1 (version_url (name pkg)
                 (resolved_version_of (net1 (package_url (name pkg))) V))) →
  ∃ r t,
    run net1 (resolveDependenciesOf requests V) = (Normal r, t)
    ∧ run net2 (resolveDependenciesOf requests V) = (Normal r, t)
    ∧ packages r = ("@schematics/angular@" +:+ V) :: (specifier net1 V <$> requests)
    ∧ requests_of t = mjoin (step_requests net1 V <$> requests).
Proof.
  intros Hsame.
  destruct (run_resolveDependenciesOf net1 requests V) as (t & Hrun & Hreq).
  eexists _, t. split; [exact Hrun|]. split; [|by split].
  rewrite <- Hrun. apply run_agree. rewrite Hrun. cbn [snd]. rewrite Hreq.
  intros url (l & Hurl & (pkg & -> & Hpkg)%list_elem_of_fmap)%list_elem_of_join.
  destruct (Hsame pkg Hpkg) as [Hlisting Hversion]. unfold step_requests in Hurl.
  apply elem_of_cons in Hurl as [->|Hurl]; [done|].
  by apply list_elem_of_singleton in Hurl as ->.
Qed.

Lemma same_responses_same_result_witness :
  ∃ r t,
    run (zone_registry "~0.14.0") (resolveDependenciesOf dependenciesToCheck "17.0.0")
    = (Normal r, t)
    ∧ run (zone_registry_with_lodash "~0.14.0")
          (resolveDependenciesOf dependenciesToCheck "17.0.0")
      = (Normal r, t)
    ∧ packages r
      = ("@schematics/angular@" +:+ "17.0.0")
        :: (specifier (zone_registry "~0.14.0") "17.0.0" <$> dependenciesToCheck)
    ∧ requests_of t
      = mjoin (step_requests (zone_registry "~0.14.0") "17.0.0" <$> dependenciesToCheck).
Proof.
  apply (same_responses_same_result (zone_registry "~0.14.0")
           (zone_registry_with_lodash "~0.14.0") dependenciesToCheck "17.0.0").
  intros pkg Hin. apply list_elem_of_In in Hin. vm_compute in Hin.
  repeat (destruct Hin as [<-|Hin]; [split; by_evaluation|]).
  destruct Hin.
Defined.

(** C8 as stated fails on the code for a parse error.  A body that is not
    JSON does not reject the request: the data is the string received,
    [typeof data] is not "object", and [getPeerDependencies] returns the empty
    object from its [try] block, where no warning is printed. *)
Lemma unparsed_body_is_not_warned :
  fetch_error (gateway_page (version_url "rxjs" "latest"))
  ∧ run gateway_page (getPeerDependencies "rxjs" "latest")
    = (Normal (JObj []), [Requested "https://registry.npmjs.org/rxjs/latest"]).
Proof. split; [right; by eexists | by_evaluation]. Qed.

(** C8: when the fetch of a version's metadata goes wrong,
    [getPeerDependencies] returns the empty object instead of throwing, after
    a warning on the console when the request was rejected and without any
    warning when the body could not be parsed; and the loop of
    [resolveDependencies], for a package whose resolved version meets such an
    error, pushes the package's specifier and leaves the conflict map as it
    was. *)
Theorem failed_fetch_gives_no_peer_dependencies (net : Registry)
    (packageName version : string) :
  fetch_error (net (version_url packageName version)) →
  run net (getPeerDependencies packageName version)
  = (Normal (JObj []),
     Requested (version_url packageName version)
     :: match net (version_url packageName version) with
        | FetchFailed =>
            [Warned ("Could not fetch peer dependencies for " +:+ packageName
                     +:+ "@" +:+ version)]
        | FetchOk _ => []
        end)
  ∧ ∀ V st pkg t1,
      name pkg = packageName →
      run net (getCompatibleVersion packageName V) = (Normal version, t1) →
      ∃ t, run net (resolveStep V st pkg)
           = (Normal {| resolvedPackages :=
                          resolvedPackages st ++ [packageName +:+ "@" +:+ version];
                        compatibilityMap := compatibilityMap st |}, t).
Proof.
  intros Herror. split.
  - rewrite run_getPeerDependencies. by destruct Herror as [->|[body ->]].
  - intros V st pkg t1 <- Hv.
    destruct (run_resolveStep net V st pkg) as (t & Hstep & _).
    destruct (run_getCompatibleVersion_value net (name pkg) V) as (t' & Hv' & _).
    rewrite Hv in Hv'. simplify_eq. exists t. rewrite Hstep. unfold next_state.
    by destruct Herror as [->|[body ->]].
Qed.

Lemma failed_fetch_gives_no_peer_dependencies_witness :
  run (only "primeng" primeng_listing) (getPeerDependencies "primeng" "10.0.0")
  = (Normal (JObj []),
     [Requested "https://registry.npmjs.org/primeng/10.0.0";
      Warned "Could not fetch peer dependencies for primeng@10.0.0"])
  ∧ ∃ t, run (only "primeng" primeng_listing)
             (resolveStep "17.0.0" (initial_state "17.0.0")
                {| name := "primeng"; version := "latest" |})
         = (Normal {| resolvedPackages := ["@schematics/angular@17.0.0"; "primeng@10.0.0"];
                      compatibilityMap := [] |}, t).
Proof.
  destruct (failed_fetch_gives_no_peer_dependencies (only "primeng" primeng_listing)
              "primeng" "10.0.0" (or_introl eq_refl)) as [Hempty Hcaller].
  split; [exact Hempty|].
  apply (Hcaller "17.0.0" (initial_state "17.0.0")
           {| name := "primeng"; version := "latest" |}
           [Requested "https://registry.npmjs.org/primeng"]); by_evaluation.
Defined.

(** C9: an entry of a peer-dependency object whose value is not a string
    adds no value to the conflict map: at most its name is registered, with an
    empty set; what is recorded under every name is unchanged, and so is
    whether the map has a conflict. *)
Theorem non_string_peer_dependency_is_skipped (m : JsMap) (depName : string)
    (depVersion : JsVal) :
  typeof depVersion ≠ "string" →
  recordPeerDependency m (depName, depVersion)
  = (if Map_has m depName then m else m ++ [(depName, [])])
  ∧ (∀ k spec, recorded (recordPeerDependency m (depName, depVersion)) k spec
               ↔ recorded m k spec)
  ∧ has_conflict (recordPeerDependency m (depName, depVersion)) = has_conflict m.
Proof.
  intros Hty.
  assert (recordPeerDependency m (depName, depVersion)
          = if Map_has m depName then m else m ++ [(depName, [])]) as Heq.
  { unfold recordPeerDependency, Map_has.
    destruct (Map_get m depName) eqn:Hget; simpl.
    - by destruct depVersion.
    - rewrite Map_set_fresh by done. by destruct depVersion. }
  split_and!; [done| |].
  - intros k spec. rewrite recorded_recordPeerDependency. split; [|by left].
    intros [?|[_ ->]]; done.
  - rewrite Heq. destruct (Map_has m depName); [done|].
    rewrite has_conflict_app. unfold has_conflict at 2. simpl. by rewrite orb_false_r.
Qed.

Lemma non_string_peer_dependency_is_skipped_witness :
  recordPeerDependency [("zone.js", ["~0.11.0"])] ("rxjs", JNum 7)
  = [("zone.js", ["~0.11.0"]); ("rxjs", [])]
  ∧ (∀ k spec, recorded (recordPeerDependency [("zone.js", ["~0.11.0"])] ("rxjs", JNum 7))
                        k spec
               ↔ recorded [("zone.js", ["~0.11.0"])] k spec)
  ∧ has_conflict (recordPeerDependency [("zone.js", ["~0.11.0"])] ("rxjs", JNum 7))
    = has_conflict [("zone.js", ["~0.11.0"])].
Proof.
  apply (non_string_peer_dependency_is_skipped [("zone.js", ["~0.11.0"])] "rxjs" (JNum 7)).
  simpl. discriminate.
Defined.

(** Brings the run of a program made of constructors to its events. *)
Ltac run_norm :=
  repeat (unfold prepend, after;
          cbn [console pbind ptry run_proc handle outcome events final_cwd app negb
               from_option];
          rewrite <- ?app_assoc, ?app_nil_r).

(** Splits on every answer of the world that the goal still waits for. *)
Ltac case_world :=
  repeat (run_norm;
          match goal with
          | |- context [run_command ?w ?c ?d] => destruct (run_command w c d) eqn:?
          | |- context [path_exists ?w ?p] => destruct (path_exists w p) eqn:?
          | |- context [can_mkdir ?w ?p] => destruct (can_mkdir w p) eqn:?
          | |- context [can_chdir ?w ?p] => destruct (can_chdir w p) eqn:?
          end).

(** ** Laws of [run_proc] *)

Section run_proc_laws.
Context {A B : Type} (w : World).

Lemma run_proc_bind (cwd : string) (p : Proc A) (f : A -> Proc B) :
  run_proc w cwd (pbind p f) =
    match outcome (run_proc w cwd p) with
    | Returned a =>
        prepend (events (run_proc w cwd p))
                (run_proc w (final_cwd (run_proc w cwd p)) (f a))
    | Threw e => {| outcome := Threw e; events := events (run_proc w cwd p);
                    final_cwd := final_cwd (run_proc w cwd p) |}
    | Exited code => {| outcome := Exited code; events := events (run_proc w cwd p);
                        final_cwd := final_cwd (run_proc w cwd p) |}
    end.
Proof.
  revert cwd. induction p as [a|e|code|eff k IH|level args k IH|e k IH]; intros cwd; simpl.
  - by destruct (run_proc w cwd (f a)).
  - done.
  - done.
  - destruct (handle w cwd eff) as [r cwd']. rewrite IH.
    by destruct (run_proc w cwd' (k r)) as [[| |] ? ?].
  - rewrite IH. by destruct (run_proc w cwd k) as [[| |] ? ?].
  - rewrite IH. by destruct (run_proc w cwd k) as [[| |] ? ?].
Qed.

Lemma run_proc_try (cwd : string) (p : Proc A) (h : Thrown -> Proc A) :
  run_proc w cwd (ptry p h) =
    match outcome (run_proc w cwd p) with
    | Threw e =>
        prepend (events (run_proc w cwd p))
                (run_proc w (final_cwd (run_proc w cwd p)) (h e))
    | _ => run_proc w cwd p
    end.
Proof.
  revert cwd. induction p as [a|e|code|eff k IH|level args k IH|e k IH]; intros cwd; simpl.
  - done.
  - by destruct (run_proc w cwd (h e)).
  - done.
  - destruct (handle w cwd eff) as [r cwd']. rewrite IH.
    by destruct (run_proc w cwd' (k r)) as [[| |] ? ?].
  - rewrite IH. by destruct (run_proc w cwd k) as [[| |] ? ?].
  - rewrite IH. by destruct (run_proc w cwd k) as [[| |] ? ?].
Qed.

Lemma run_proc_lift (cwd : string) (p : Prog A) :
  run_proc w cwd (lift p) =
    {| outcome := outcome_of (run (registry_of w) p).1;
       events := embed cwd <$> (run (registry_of w) p).2;
       final_cwd := cwd |}.
Proof.
  induction p as [a|e|url k IH|msg k IH]; simpl; [done|done| |].
  - rewrite IH. change (fetch_result (http w (get_request url))) with (registry_of w url).
    by destruct (run (registry_of w) (k (registry_of w url))).
  - rewrite IH. by destruct (run (registry_of w) k).
Qed.
End run_proc_laws.

(** ** [runCommand] and [installDependenciesRule] *)

Lemma run_runCommand (w : World) (cwd command : string) (args : list string)
    (dir : option string) :
  run_proc w cwd (runCommand command args dir) =
    if run_command w (command +:+ " " +:+ join_spaces args) (default cwd dir)
    then {| outcome := Returned tt;
            events := [Called (ExecSync (command +:+ " " +:+ join_spaces args) dir) cwd];
            final_cwd := cwd |}
    else {| outcome := Threw (ExecError (command +:+ " " +:+ join_spaces args));
            events := [Called (ExecSync (command +:+ " " +:+ join_spaces args) dir) cwd;
                       Logged ErrorLevel
                         [Text ("Errore durante l'esecuzione del comando: " +:+ command
                                +:+ " " +:+ join_spaces args)]];
            final_cwd := cwd |}.
Proof.
  unfold runCommand. rewrite run_proc_try. unfold execSync. cbn [run_proc handle].
  by destruct (run_command w _ _).
Qed.

Lemma resolveDependencies_normal (net : Registry) (V : string) :
  ∃ r t, run net (resolveDependencies V) = (Normal r, t).
Proof.
  destruct (run_resolveDependenciesOf net dependenciesToCheck V) as (t & Hrun & _).
  by eexists _, _.
Qed.

(** The arguments [installDependenciesRule] passes to npm for a result. *)
Lemma run_installDependenciesRule (w : World) (cwd V : string) (r : ResolutionResult)
    (t : list Event) :
  run (registry_of w) (resolveDependencies V) = (Normal r, t) →
  run_proc w cwd (installDependenciesRule V) =
    prepend
      ((embed cwd <$> t)
       ++ [Logged LogLevel
             [Text ("Esecuzione comando: npm "
                    +:+ join_spaces ("install" :: packages r
                          ++ (if forceInstall r then ["--legacy-peer-deps"] else [])))]])
      (run_proc w cwd
         (runCommand "npm"
            ("install" :: packages r
             ++ (if forceInstall r then ["--legacy-peer-deps"] else [])) None)).
Proof.
  intros Hrun. unfold installDependenciesRule.
  rewrite run_proc_bind, run_proc_lift, Hrun. cbn [outcome outcome_of fst snd events final_cwd].
  rewrite run_proc_bind. cbn [console run_proc outcome events final_cwd after].
  unfold prepend. cbn [outcome events final_cwd]. by rewrite <- app_assoc.
Qed.

Lemma commands_app (t1 t2 : list PEvent) :
  commands (t1 ++ t2) = commands t1 ++ commands t2.
Proof. apply omap_app. Qed.

Lemma http_requests_app (t1 t2 : list PEvent) :
  http_requests (t1 ++ t2) = http_requests t1 ++ http_requests t2.
Proof. apply omap_app. Qed.

Lemma commands_embed (cwd : string) (t : list Event) : commands (embed cwd <$> t) = [].
Proof. induction t as [|[url|msg] t IH]; simpl; auto. Qed.

Lemma http_requests_embed (cwd : string) (t : list Event) :
  http_requests (embed cwd <$> t) = get_request <$> requests_of t.
Proof.
  induction t as [|[url|msg] t IH]; [done| |exact IH].
  change (get_request url :: http_requests (embed cwd <$> t)
          = get_request url :: (get_request <$> requests_of t)).
  by f_equal.
Qed.

(** X1: [installDependenciesRule] makes the resolver's registry requests
    and no other, then runs exactly one command, in the directory the process
    is in: "npm install" followed by the resolved packages and, exactly when
    the resolver's [forceInstall] is true, by "--legacy-peer-deps". *)
Theorem install_runs_one_npm_command (w : World) (cwd V : string) :
  ∃ r t,
    run (registry_of w) (resolveDependencies V) = (Normal r, t)
    ∧ commands (events (run_proc w cwd (installDependenciesRule V)))
      = [("npm " +:+ join_spaces ("install" :: packages r
                     ++ (if forceInstall r then ["--legacy-peer-deps"] else [])), cwd)]
    ∧ http_requests (events (run_proc w cwd (installDependenciesRule V)))
      = get_request <$> requests_of t
    ∧ ∃ rest, events (run_proc w cwd (installDependenciesRule V))
              = (embed cwd <$> t) ++ rest
              ∧ http_requests rest = [].
Proof.
  destruct (resolveDependencies_normal (registry_of w) V) as (r & t & Hrun).
  exists r, t. split; [done|].
  rewrite (run_installDependenciesRule w cwd V r t Hrun), run_runCommand.
  unfold prepend.
  destruct (run_command w _ _); cbn [events outcome final_cwd];
    rewrite <- !app_assoc, ?commands_app, ?http_requests_app, commands_embed,
      ?http_requests_embed; simpl; rewrite ?app_nil_r;
    (split_and!; [done|done|]); by eexists.
Qed.

(** X2: [installDependenciesRule] fails only when npm does: whatever the
    registry answers, it returns when the npm command succeeds, and when the
    command fails it prints the error line and throws the command's error. *)
Theorem install_fails_only_with_npm (w : World) (cwd V : string) :
  ∃ r t line,
    run (registry_of w) (resolveDependencies V) = (Normal r, t)
    ∧ line = "npm " +:+ join_spaces ("install" :: packages r
                          ++ (if forceInstall r then ["--legacy-peer-deps"] else []))
    ∧ outcome (run_proc w cwd (installDependenciesRule V))
      = (if run_command w line cwd then Returned tt else Threw (ExecError line))
    ∧ (run_command w line cwd = false →
       last (events (run_proc w cwd (installDependenciesRule V)))
       = Some (Logged ErrorLevel
                 [Text ("Errore durante l'esecuzione del comando: " +:+ line)])).
Proof.
  destruct (resolveDependencies_normal (registry_of w) V) as (r & t & Hrun).
  exists r, t. eexists. split; [done|]. split; [reflexivity|].
  rewrite (run_installDependenciesRule w cwd V r t Hrun), run_runCommand.
  unfold prepend. cbn [default].
  destruct (run_command w _ _); cbn [events outcome final_cwd]; split; try done.
  intros _. by rewrite !last_app.
Qed.

(** ** [getGitHubToken] *)

(** X3: [getGitHubToken] returns the token exactly when GITHUB_TOKEN is set
    to a non-empty string; when it is unset or empty the process exits with
    status 1; it never throws; and the first thing it prints with
    [console.log] is the value of the variable itself. *)
Theorem token_or_exit (w : World) (cwd : string) :
  (∀ token, outcome (run_proc w cwd getGitHubToken) = Returned token
            ↔ getenv w "GITHUB_TOKEN" = Some token ∧ token ≠ "")
  ∧ (outcome (run_proc w cwd getGitHubToken) = Exited 1
     ↔ getenv w "GITHUB_TOKEN" = None ∨ getenv w "GITHUB_TOKEN" = Some "")
  ∧ (∀ e, outcome (run_proc w cwd getGitHubToken) ≠ Threw e)
  ∧ head (console_output (events (run_proc w cwd getGitHubToken)))
    = Some (LogLevel, [env_value (getenv w "GITHUB_TOKEN")])
  ∧ commands (events (run_proc w cwd getGitHubToken)) = []
  ∧ http_requests (events (run_proc w cwd getGitHubToken)) = [].
Proof.
  unfold getGitHubToken. cbn [pbind run_proc handle console].
  destruct (getenv w "GITHUB_TOKEN") as [[|c s]|]; cbn; split_and!; try done.
  - intros token. split; [done|]. by intros [[= <-] ?].
  - split; [by right | done].
  - intros token. split; [by intros [= <-] | by intros [[= <-] _]].
  - split; [done | by intros [|]].
  - intros token. split; [done | by intros []].
  - split; [by left | done].
Qed.

(** ** [checkIfRepoExists] *)

Lemma run_has_name (w : World) (cwd repoName : string) (repo : JsVal) :
  run_proc w cwd (has_name repoName repo) =
    {| outcome := if nullish repo then Threw (JsThrown TypeError)
                  else Returned (strict_eq_string (read_prop repo "name") repoName);
       events := []; final_cwd := cwd |}.
Proof. unfold has_name, pget. by destruct (nullish repo). Qed.

Lemma run_Array_some (w : World) (cwd repoName : string) (repos : list JsVal) :
  run_proc w cwd (Array_some (has_name repoName) repos) =
    {| outcome := match listed repoName repos with
                  | Some b => Returned b
                  | None => Threw (JsThrown TypeError)
                  end;
       events := []; final_cwd := cwd |}.
Proof.
  induction repos as [|repo repos IH]; [done|].
  cbn [Array_some listed]. rewrite run_proc_bind, run_has_name.
  destruct (nullish repo); [done|]. cbn [outcome events final_cwd].
  destruct (strict_eq_string _ _); [done|]. rewrite IH.
  by destruct (listed repoName repos).
Qed.

Lemma run_axios (w : World) (cwd : string) (req : HttpRequest) :
  run_proc w cwd (axios req) =
    {| outcome := match http w req with
                  | Resolved data => Returned data
                  | Rejected status => Threw (AxiosError status)
                  end;
       events := [Called (Http req) cwd]; final_cwd := cwd |}.
Proof. unfold axios. cbn [run_proc handle]. by destruct (http w req). Qed.

Lemma run_checkIfRepoExists (w : World) (cwd repoName token : string) :
  run_proc w cwd (checkIfRepoExists repoName token) =
    {| outcome := Returned match repo_check (http w (list_repos_request token)) repoName with
                           | inl b => b
                           | inr _ => false
                           end;
       events := Called (Http (list_repos_request token)) cwd
                 :: match repo_check (http w (list_repos_request token)) repoName with
                    | inl _ => []
                    | inr error => [Logged ErrorLevel (listing_error_line error)]
                    end;
       final_cwd := cwd |}.
Proof.
  unfold checkIfRepoExists. rewrite run_proc_try, run_proc_bind, run_axios.
  unfold repo_check.
  destruct (http w (list_repos_request token)) as [status|data];
    cbn [outcome events final_cwd]; [done|].
  destruct data as [| |b|q|s|repos|props]; try done.
  rewrite run_Array_some. by destruct (listed repoName repos).
Qed.

Lemma listed_true_iff (repoName : string) (repos : list JsVal) :
  listed repoName repos = Some true
  ↔ ∃ (i : nat) repo, repos !! i = Some repo
              ∧ read_prop repo "name" = JStr repoName
              ∧ ∀ (j : nat) r, (j ≤ i)%nat → repos !! j = Some r → nullish r = false.
Proof.
  induction repos as [|x repos IH]; simpl.
  - split; [done|]. by intros (i & repo & Hi & _).
  - destruct (nullish x) eqn:Hx.
    { split; [done|]. intros (i & repo & _ & _ & Hall).
      specialize (Hall 0%nat x). rewrite Hx in Hall.
      assert (true = false) as Habs by (apply Hall; [lia|done]). done. }
    destruct (strict_eq_string (read_prop x "name") repoName) eqn:Hname.
    { split; [|done]. intros _. exists 0%nat, x. split_and!; [done| |].
      - unfold strict_eq_string in Hname. destruct (read_prop x "name"); try done.
        by apply String.eqb_eq in Hname as ->.
      - intros j r Hj. assert (j = 0%nat) as -> by lia. by intros [= <-]. }
    rewrite IH. split.
    + intros (i & repo & Hi & Hn & Hall). exists (S i), repo. split_and!; [done|done|].
      intros [|j] r Hj; [by intros [= <-]|]. apply Hall. lia.
    + intros ([|i] & repo & Hi & Hn & Hall).
      * simpl in Hi. simplify_eq. unfold strict_eq_string in Hname.
        rewrite Hn in Hname. by rewrite String.eqb_refl in Hname.
      * exists i, repo. split_and!; [done|done|].
        intros j r Hj Hr. apply (Hall (S j) r); [lia|done].
Qed.

(** X4: [checkIfRepoExists] never throws and never exits: it makes the one
    listing request, with the token as bearer, and answers a boolean, which
    is [false] (after an error line) whenever the request is rejected or the
    data is not an array. *)
Theorem checkIfRepoExists_never_fails (w : World) (cwd repoName token : string) :
  ∃ b, outcome (run_proc w cwd (checkIfRepoExists repoName token)) = Returned b
       ∧ http_requests (events (run_proc w cwd (checkIfRepoExists repoName token)))
         = [list_repos_request token]
       ∧ ((∃ status, http w (list_repos_request token) = Rejected status)
          ∨ (∃ data, http w (list_repos_request token) = Resolved data
                     ∧ ∀ repos, data ≠ JArr repos) →
          b = false
          ∧ ∃ error, last (events (run_proc w cwd (checkIfRepoExists repoName token)))
                     = Some (Logged ErrorLevel (listing_error_line error))).
Proof.
  rewrite run_checkIfRepoExists. cbn [outcome events]. eexists. split; [done|]. split.
  - by destruct (repo_check _ _).
  - intros [[status ->]|(data & -> & Hdata)]; simpl.
    + split; [done|]. by eexists.
    + destruct data as [| |b|q|s|repos|props]; try (split; [done|by eexists]).
      by destruct (Hdata repos).
Qed.

(** X5: [checkIfRepoExists] answers [true] exactly when the listing is an
    array that has, at some index, an element whose [name] is the repository
    name, with no [null] element at or before that index. *)
Theorem checkIfRepoExists_true_iff (w : World) (cwd repoName token : string) :
  outcome (run_proc w cwd (checkIfRepoExists repoName token)) = Returned true
  ↔ ∃ repos (i : nat) repo,
      http w (list_repos_request token) = Resolved (JArr repos)
      ∧ repos !! i = Some repo
      ∧ read_prop repo "name" = JStr repoName
      ∧ ∀ (j : nat) r, (j ≤ i)%nat → repos !! j = Some r → nullish r = false.
Proof.
  rewrite run_checkIfRepoExists. cbn [outcome]. unfold repo_check. split.
  - destruct (http w (list_repos_request token)) as [status|data]; [done|].
    destruct data as [| |b|q|s|repos|props]; try done.
    destruct (listed repoName repos) as [b|] eqn:Hl; [|done].
    intros [= ->]. apply listed_true_iff in Hl as (i & repo & ?).
    by exists repos, i, repo.
  - intros (repos & i & repo & -> & Hrest).
    assert (listed repoName repos = Some true) as ->; [|done].
    apply listed_true_iff. by exists i, repo.
Qed.

(** ** [createGitRepo] *)

Lemma run_createGitRepo (w : World) (cwd repoName : string) (privateRepo : bool)
    (token : string) :
  run_proc w cwd (createGitRepo repoName privateRepo token) =
    prepend (events (run_proc w cwd (checkIfRepoExists repoName token)))
      (if repo_found w repoName token
       then {| outcome := Threw (ErrorOf (exists_message repoName));
               events := [Logged ErrorLevel
                            (creation_error_line (ErrorOf (exists_message repoName)))];
               final_cwd := cwd |}
       else match created (http w (create_repo_request repoName privateRepo token)) with
            | inl clone_url =>
                {| outcome := Returned clone_url;
                   events := [Called (Http (create_repo_request repoName privateRepo token))
                                cwd];
                   final_cwd := cwd |}
            | inr error =>
                {| outcome := Threw error;
                   events := [Called (Http (create_repo_request repoName privateRepo token))
                                cwd;
                              Logged ErrorLevel (creation_error_line error)];
                   final_cwd := cwd |}
            end).
Proof.
  unfold createGitRepo. rewrite run_proc_try, run_proc_bind, run_checkIfRepoExists.
  fold (repo_found w repoName token). cbn [outcome events final_cwd].
  destruct (repo_found w repoName token).
  - fold (exists_message repoName). unfold creation_error_line, is_422. by run_norm.
  - rewrite run_proc_bind, run_axios. unfold created.
    destruct (http w (create_repo_request repoName privateRepo token)) as [status|data];
      cbn [outcome events final_cwd].
    + unfold creation_error_line. run_norm.
      destruct (is_422 (AxiosError status)); by run_norm.
    + rewrite run_proc_bind. unfold pget, creation_error_line.
      destruct (nullish data); run_norm; [done|].
      destruct (truthy (read_prop data "clone_url")); by run_norm.
Qed.

Lemma checkIfRepoExists_outcome (w : World) (cwd repoName token : string) :
  outcome (run_proc w cwd (checkIfRepoExists repoName token))
  = Returned (repo_found w repoName token).
Proof. by rewrite run_checkIfRepoExists. Qed.

Lemma checkIfRepoExists_requests (w : World) (cwd repoName token : string) :
  http_requests (events (run_proc w cwd (checkIfRepoExists repoName token)))
  = [list_repos_request token].
Proof.
  rewrite run_checkIfRepoExists. cbn [events]. by destruct (repo_check _ _).
Qed.

Lemma createGitRepo_requests (w : World) (cwd repoName : string) (privateRepo : bool)
    (token : string) :
  http_requests (events (run_proc w cwd (createGitRepo repoName privateRepo token)))
  = list_repos_request token
    :: if repo_found w repoName token then []
       else [create_repo_request repoName privateRepo token].
Proof.
  rewrite run_createGitRepo. unfold prepend. cbn [events].
  rewrite http_requests_app, checkIfRepoExists_requests.
  destruct (repo_found w repoName token); [done|].
  by destruct (created _).
Qed.

Lemma creation_failure_exits_never (w : World) (cwd repoName : string)
    (privateRepo : bool) (token : string) (code : Z) :
  outcome (run_proc w cwd (createGitRepo repoName privateRepo token)) ≠ Exited code.
Proof.
  rewrite run_createGitRepo. unfold prepend.
  destruct (repo_found w repoName token); cbn [outcome]; [done|].
  by destruct (created _).
Qed.

(** X6: when [checkIfRepoExists] finds the repository, [createGitRepo] sends
    no creation request: the listing is its only request, and it throws the
    error that says the repository exists. *)
Theorem existing_repository_is_not_created (w : World) (cwd repoName : string)
    (privateRepo : bool) (token : string) :
  outcome (run_proc w cwd (checkIfRepoExists repoName token)) = Returned true →
  outcome (run_proc w cwd (createGitRepo repoName privateRepo token))
  = Threw (ErrorOf (exists_message repoName))
  ∧ http_requests (events (run_proc w cwd (createGitRepo repoName privateRepo token)))
    = [list_repos_request token].
Proof.
  rewrite checkIfRepoExists_outcome. intros [= Hfound].
  rewrite createGitRepo_requests, run_createGitRepo, Hfound. by split.
Qed.

Lemma existing_repository_is_not_created_witness :
  outcome (run_proc (github_world (Resolved (JArr [other_repo; app_repo])) (Rejected None))
             "/home/me" (createGitRepo "app" true "ghp_example"))
  = Threw (ErrorOf (exists_message "app"))
  ∧ http_requests
      (events (run_proc (github_world (Resolved (JArr [other_repo; app_repo]))
                           (Rejected None))
                 "/home/me" (createGitRepo "app" true "ghp_example")))
    = [list_repos_request "ghp_example"].
Proof.
  apply (existing_repository_is_not_created
           (github_world (Resolved (JArr [other_repo; app_repo])) (Rejected None))
           "/home/me" "app" true "ghp_example").
  by_evaluation.
Defined.

(** X7: a value that [createGitRepo] returns is the truthy [clone_url] of
    the data with which the creation request resolved, and the request was
    sent after [checkIfRepoExists] answered [false]. *)
Theorem created_repository_url (w : World) (cwd repoName : string)
    (privateRepo : bool) (token : string) (clone_url : JsVal) :
  outcome (run_proc w cwd (createGitRepo repoName privateRepo token)) = Returned clone_url →
  truthy clone_url = true
  ∧ outcome (run_proc w cwd (checkIfRepoExists repoName token)) = Returned false
  ∧ (∃ data, http w (create_repo_request repoName privateRepo token) = Resolved data
             ∧ read_prop data "clone_url" = clone_url)
  ∧ http_requests (events (run_proc w cwd (createGitRepo repoName privateRepo token)))
    = [list_repos_request token; create_repo_request repoName privateRepo token].
Proof.
  rewrite createGitRepo_requests, checkIfRepoExists_outcome, run_createGitRepo.
  destruct (repo_found w repoName token); [done|]. unfold created.
  destruct (http w (create_repo_request repoName privateRepo token)) as [status|data];
    [done|].
  destruct (nullish data); [done|].
  destruct (truthy (read_prop data "clone_url")) eqn:Htruthy; [|done].
  intros [= <-]. split_and!; [done|done| |done]. by exists data.
Qed.

Lemma created_repository_url_witness :
  truthy (JStr "https://github.com/me/app.git") = true
  ∧ outcome (run_proc (github_world (Resolved (JArr [other_repo])) (Resolved app_repo))
               "/home/me" (checkIfRepoExists "app" "ghp_example"))
    = Returned false
  ∧ (∃ data, http (github_world (Resolved (JArr [other_repo])) (Resolved app_repo))
               (create_repo_request "app" true "ghp_example") = Resolved data
             ∧ read_prop data "clone_url" = JStr "https://github.com/me/app.git")
  ∧ http_requests
      (events (run_proc (github_world (Resolved (JArr [other_repo])) (Resolved app_repo))
                 "/home/me" (createGitRepo "app" true "ghp_example")))
    = [list_repos_request "ghp_example"; create_repo_request "app" true "ghp_example"].
Proof.
  apply (created_repository_url
           (github_world (Resolved (JArr [other_repo])) (Resolved app_repo))
           "/home/me" "app" true "ghp_example" (JStr "https://github.com/me/app.git")).
  by_evaluation.
Defined.

(** X8: [createGitRepo] never exits the process, and whatever it throws it
    has printed just before with [console.error]: the line about an existing
    repository or invalid name for a rejection with status 422, and otherwise
    the Axios line with the error's message. *)
Theorem creation_failure_is_logged_and_rethrown (w : World) (cwd repoName : string)
    (privateRepo : bool) (token : string) :
  (∀ code, outcome (run_proc w cwd (createGitRepo repoName privateRepo token))
           ≠ Exited code)
  ∧ ∀ error,
      outcome (run_proc w cwd (createGitRepo repoName privateRepo token)) = Threw error →
      last (events (run_proc w cwd (createGitRepo repoName privateRepo token)))
      = Some (Logged ErrorLevel (creation_error_line error)).
Proof.
  rewrite run_createGitRepo. unfold prepend.
  destruct (repo_found w repoName token); cbn [outcome events].
  - split; [done|]. intros error [= <-]. by rewrite last_app.
  - destruct (created _) as [v|e]; cbn [outcome events]; (split; [done|]); [done|].
    intros error [= <-]. by rewrite last_app.
Qed.

(** X9: a listing request that is rejected counts as "no such repository":
    [createGitRepo] goes on to send the creation request. *)
Theorem unlisted_repository_is_created (w : World) (cwd repoName : string)
    (privateRepo : bool) (token : string) (status : option Z) :
  http w (list_repos_request token) = Rejected status →
  http_requests (events (run_proc w cwd (createGitRepo repoName privateRepo token)))
  = [list_repos_request token; create_repo_request repoName privateRepo token].
Proof.
  intros Hrej. rewrite createGitRepo_requests. unfold repo_found. by rewrite Hrej.
Qed.

Lemma unlisted_repository_is_created_witness :
  http_requests
    (events (run_proc (github_world (Rejected (Some 401%Z)) (Resolved app_repo))
               "/home/me" (createGitRepo "app" true "ghp_example")))
  = [list_repos_request "ghp_example"; create_repo_request "app" true "ghp_example"].
Proof.
  apply (unlisted_repository_is_created
           (github_world (Rejected (Some 401%Z)) (Resolved app_repo))
           "/home/me" "app" true "ghp_example" (Some 401%Z)).
  by_evaluation.
Defined.

(** ** [setupGitRepository] *)

Lemma env_reads_app (t1 t2 : list PEvent) :
  env_reads (t1 ++ t2) = env_reads t1 ++ env_reads t2.
Proof. apply omap_app. Qed.

Lemma env_reads_embed (cwd : string) (t : list Event) : env_reads (embed cwd <$> t) = [].
Proof. induction t as [|[url|msg] t IH]; simpl; auto. Qed.

(** The [try] block of [setupGitRepository], for any command lines. *)
Lemma run_git_block (w : World) (dir c1 c2 c3 before_url c5 c6 c7 : string)
    (repoUrl : JsVal) (pattern replacement : string) (warning failure : list LogArg) :
  let ok := λ command, run_command w command dir in
  let block :=
    ptry
      (doP _ <- execSync c1 None ;;
       doP _ <- execSync c2 None ;;
       doP _ <- execSync c3 None ;;
       doP authRepoUrl <- replace_of repoUrl pattern replacement ;;
       doP _ <- execSync (before_url +:+ authRepoUrl) None ;;
       doP _ <- execSync c5 None ;;
       doP _ <- ptry (execSync c6 None) (fun _ => console WarnLevel warning) ;;
       execSync c7 None)
      (fun error => console ErrorLevel (failure ++ [ErrorObject error])) in
  outcome (run_proc w dir block) = Returned tt
  ∧ final_cwd (run_proc w dir block) = dir
  ∧ commands (events (run_proc w dir block))
    = (λ command, (command, dir))
      <$> match repoUrl with
          | JStr s =>
              run_script ok [c1; c2; c3;
                             before_url +:+ String_replace s pattern replacement; c5]
              ++ (if forallb ok [c1; c2; c3;
                                 before_url +:+ String_replace s pattern replacement; c5]
                  then [c6; c7] else [])
          | _ => run_script ok [c1; c2; c3]
          end
  ∧ http_requests (events (run_proc w dir block)) = []
  ∧ env_reads (events (run_proc w dir block)) = [].
Proof.
  intros ok block. subst ok block. unfold execSync, replace_of.
  destruct repoUrl; cbn [run_script forallb andb fmap list_fmap app];
    case_world; by cbn.
Qed.

(** Entering the project directory, before any body. *)
Lemma run_enter_directory (w : World) (cwd projectPath : string) (body : Proc unit) :
  run_proc w cwd
    (doP exists_ <- PCall (ExistsSync projectPath) PRet ;;
     doP _ <- (if negb exists_ then mkdirSync projectPath else PRet tt) ;;
     doP _ <- chdir projectPath ;;
     body)
  = if directory_ready w projectPath
    then prepend
           (Called (ExistsSync projectPath) cwd
            :: (if path_exists w projectPath then []
                else [Called (MkdirSync projectPath) cwd])
            ++ [Called (Chdir projectPath) cwd])
           (run_proc w projectPath body)
    else {| outcome := Threw (FsError projectPath);
            events := Called (ExistsSync projectPath) cwd
                      :: if path_exists w projectPath
                         then [Called (Chdir projectPath) cwd]
                         else Called (MkdirSync projectPath) cwd
                              :: if can_mkdir w projectPath
                                 then [Called (Chdir projectPath) cwd] else [];
            final_cwd := cwd |}.
Proof.
  unfold directory_ready, mkdirSync, chdir. case_world; cbn [orb andb]; by run_norm.
Qed.

Lemma run_setup_not_ready (w : World) (cwd projectPath : string) (repoUrl : JsVal)
    (token : string) :
  directory_ready w projectPath = false →
  outcome (run_proc w cwd (setupGitRepository projectPath repoUrl token))
  = Threw (FsError projectPath)
  ∧ commands (events (run_proc w cwd (setupGitRepository projectPath repoUrl token))) = []
  ∧ http_requests (events (run_proc w cwd (setupGitRepository projectPath repoUrl token)))
    = []
  ∧ env_reads (events (run_proc w cwd (setupGitRepository projectPath repoUrl token)))
    = [].
Proof.
  intros Hready. unfold setupGitRepository. rewrite run_enter_directory, Hready.
  cbn [outcome events]. split_and!; [done| | |];
    by destruct (path_exists w projectPath), (can_mkdir w projectPath).
Qed.

Lemma run_setup_ready (w : World) (cwd projectPath : string) (repoUrl : JsVal)
    (token : string) :
  directory_ready w projectPath = true →
  outcome (run_proc w cwd (setupGitRepository projectPath repoUrl token)) = Returned tt
  ∧ final_cwd (run_proc w cwd (setupGitRepository projectPath repoUrl token)) = projectPath
  ∧ commands (events (run_proc w cwd (setupGitRepository projectPath repoUrl token)))
    = (λ command, (command, projectPath))
      <$> git_commands_run (λ command, run_command w command projectPath) repoUrl token
  ∧ http_requests (events (run_proc w cwd (setupGitRepository projectPath repoUrl token)))
    = []
  ∧ env_reads (events (run_proc w cwd (setupGitRepository projectPath repoUrl token)))
    = [].
Proof.
  intros Hready.
  pose proof (run_git_block w projectPath "git init" git_config_name git_config_email
                "git remote add origin " "git add ." git_commit git_push repoUrl
                "https://" ("https://" +:+ token +:+ "@")
                [Text ("Nessun file da committare o commit gi" +:+ a_grave
                       +:+ " presente.")]
                [Text "Errore durante la configurazione del repository Git:"])
    as (Hout & Hcwd & Hcmd & Hhttp & Henv).
  unfold setupGitRepository. rewrite run_enter_directory, Hready.
  unfold prepend. cbn [outcome events final_cwd].
  split_and!; [exact Hout|exact Hcwd| | |].
  - rewrite commands_app. etrans; [|exact Hcmd].
    by destruct (path_exists w projectPath).
  - rewrite http_requests_app. etrans; [|exact Hhttp].
    by destruct (path_exists w projectPath).
  - rewrite env_reads_app. etrans; [|exact Henv].
    by destruct (path_exists w projectPath).
Qed.

(** X10: [setupGitRepository] throws only when the project directory can
    neither be found nor made, or cannot be entered, and then before any
    command has run; no failing git command and no [repoUrl] of the wrong type
    makes it throw, and it never exits the process. *)
Theorem setup_throws_only_for_the_directory (w : World) (cwd projectPath : string)
    (repoUrl : JsVal) (token : string) :
  (outcome (run_proc w cwd (setupGitRepository projectPath repoUrl token)) = Returned tt
   ↔ directory_ready w projectPath = true)
  ∧ (directory_ready w projectPath = false →
     outcome (run_proc w cwd (setupGitRepository projectPath repoUrl token))
     = Threw (FsError projectPath)
     ∧ commands (events (run_proc w cwd (setupGitRepository projectPath repoUrl token)))
       = []).
Proof.
  destruct (directory_ready w projectPath) eqn:Hready.
  - destruct (run_setup_ready w cwd projectPath repoUrl token Hready) as (-> & _).
    by split.
  - destruct (run_setup_not_ready w cwd projectPath repoUrl token Hready) as (-> & -> & _).
    by split.
Qed.

Lemma run_script_subset (ok : string -> bool) (script : list string) (command : string) :
  command ∈ run_script ok script → command ∈ script.
Proof.
  induction script as [|c script IH]; simpl; [done|].
  intros [->|Hin]%elem_of_cons; [left|]. right.
  destruct (ok c); [by apply IH | by apply elem_of_nil in Hin].
Qed.

Lemma run_script_prefix (ok : string -> bool) (script : list string) :
  run_script ok script `prefix_of` script.
Proof.
  induction script as [|c script IH]; simpl; [done|].
  apply prefix_cons. destruct (ok c); [done | apply prefix_nil].
Qed.

Lemma run_script_all (ok : string -> bool) (script : list string) :
  forallb ok script = true → run_script ok script = script.
Proof.
  induction script as [|c script IH]; simpl; [done|].
  intros [-> Hrest]%andb_true_iff. by rewrite IH.
Qed.

Lemma fst_in_directory (dir : string) (l : list string) :
  ((λ command, (command, dir)) <$> l).*1 = l.
Proof. induction l as [|c l IH]; [done|]. cbn. by rewrite IH. Qed.

(** X11: every command that [setupGitRepository] runs, runs in the project
    directory. *)
Theorem git_commands_run_in_project (w : World) (cwd projectPath : string)
    (repoUrl : JsVal) (token command dir : string) :
  (command, dir)
    ∈ commands (events (run_proc w cwd (setupGitRepository projectPath repoUrl token))) →
  dir = projectPath.
Proof.
  destruct (directory_ready w projectPath) eqn:Hready.
  - destruct (run_setup_ready w cwd projectPath repoUrl token Hready) as (_ & _ & -> & _).
    by intros (c & [= -> ->] & _)%list_elem_of_fmap.
  - destruct (run_setup_not_ready w cwd projectPath repoUrl token Hready) as (_ & -> & _).
    by intros ?%elem_of_nil.
Qed.

Lemma git_commands_run_in_project_witness : "/home/me/app" = "/home/me/app".
Proof.
  apply (git_commands_run_in_project
           (github_world (Rejected None) (Rejected None)) "/home/me" "/home/me/app"
           (JStr "https://github.com/me/app.git") "" "git add ." "/home/me/app").
  vm_compute. do 4 right. left.
Defined.

(** X12: for a string [repoUrl], the push is run exactly when the project
    directory is ready and the five commands before the commit succeed:
    whether the commit succeeds has no part in it. *)
Theorem push_does_not_wait_for_commit (w : World) (cwd projectPath repoUrl token : string) :
  (git_push, projectPath)
    ∈ commands (events (run_proc w cwd
                          (setupGitRepository projectPath (JStr repoUrl) token)))
  ↔ directory_ready w projectPath = true
    ∧ forallb (λ command, run_command w command projectPath)
        ["git init"; git_config_name; git_config_email;
         git_remote_add repoUrl token; "git add ."] = true.
Proof.
  destruct (directory_ready w projectPath) eqn:Hready.
  - destruct (run_setup_ready w cwd projectPath (JStr repoUrl) token Hready)
      as (_ & _ & -> & _).
    unfold git_commands_run. split.
    + intros (c & [= <-] & Hin)%list_elem_of_fmap. split; [done|].
      apply elem_of_app in Hin as [Hin|Hin].
      * apply run_script_subset in Hin.
        repeat (apply elem_of_cons in Hin as [Hin|Hin]; [by vm_compute in Hin|]).
        by apply elem_of_nil in Hin.
      * by destruct (forallb _ _); [|apply elem_of_nil in Hin].
    + intros [_ ->]. apply list_elem_of_fmap. exists git_push. split; [done|].
      apply elem_of_app. right. right. left.
  - destruct (run_setup_not_ready w cwd projectPath (JStr repoUrl) token Hready)
      as (_ & -> & _).
    split; [by intros ?%elem_of_nil | by intros [? _]].
Qed.

(** The push runs although the commit failed. *)
Example push_after_failed_commit :
  commands (events (run_proc
                      (nothing_to_commit (github_world (Rejected None) (Rejected None)))
                      "/home/me"
                      (setupGitRepository "/home/me/app"
                         (JStr "https://github.com/me/app.git") "")))
  = (λ command, (command, "/home/me/app"))
    <$> git_script "https://github.com/me/app.git" "".
Proof. by_evaluation. Qed.

(** A command of a script is run exactly when all before it succeeded. *)
Lemma run_script_lookup (ok : string → bool) (script : list string) (n : nat)
    (command : string) :
  run_script ok script !! n = Some command
  ↔ script !! n = Some command
    ∧ ∀ (m : nat) earlier, (m < n)%nat → script !! m = Some earlier → ok earlier = true.
Proof.
  revert n. induction script as [|c script IH]; intros n; cbn [run_script].
  - split; [done|by intros [? _]].
  - destruct n as [|n]; cbn [lookup list_lookup].
    + split; [|by intros [? _]]. intros ?. split; [done|]. intros m x Hm. lia.
    + destruct (ok c) eqn:Hc.
      * fold (@lookup nat string (list string) _). rewrite IH. split.
        -- intros [Hn Hbefore]. split; [done|]. intros [|m] x Hm Hx.
           ++ by simplify_eq/=.
           ++ apply (Hbefore m); [lia|done].
        -- intros [Hn Hbefore]. split; [done|]. intros m x Hm Hx.
           apply (Hbefore (S m)); [lia|done].
      * split; [done|]. intros [_ Hbefore].
        specialize (Hbefore 0%nat c ltac:(lia) eq_refl). congruence.
Qed.

(** The script of [setupGitRepository] is a script that the failure of the
    commit does not end. *)
Lemma run_script_forgiving (ok : string → bool) (a b c d e commit push : string) :
  a ≠ commit → b ≠ commit → c ≠ commit → d ≠ commit → e ≠ commit →
  run_script ok [a; b; c; d; e]
  ++ (if forallb ok [a; b; c; d; e] then [commit; push] else [])
  = run_script (λ x, ok x || bool_decide (x = commit)) [a; b; c; d; e; commit; push].
Proof.
  intros Ha Hb Hc Hd He. cbn [run_script forallb].
  rewrite !(bool_decide_eq_false_2 (_ = commit)) by done.
  rewrite (bool_decide_eq_true_2 (commit = commit)) by done.
  rewrite !orb_false_r, orb_true_r.
  destruct (ok a); [|done]. destruct (ok b); [|done]. destruct (ok c); [|done].
  destruct (ok d); [|done]. destruct (ok e); [|done]. simpl.
  by destruct (ok push || bool_decide (push = commit)).
Qed.

(** X13: for a string [repoUrl], the commands that [setupGitRepository] runs
    are, in order and with none left out, the first commands of its script:
    init, the two config commands, remote add, add, commit, push; and a
    command of the script is run exactly when the project directory is ready
    and every command before it, the commit apart, has succeeded: the run
    stops at the first failing command other than the commit, and not
    before. *)
Theorem commands_follow_the_script (w : World) (cwd projectPath repoUrl token : string) :
  (commands (events (run_proc w cwd
                       (setupGitRepository projectPath (JStr repoUrl) token)))).*1
  `prefix_of` git_script repoUrl token
  ∧ ∀ (n : nat) command,
      git_script repoUrl token !! n = Some command →
      (commands (events (run_proc w cwd
                           (setupGitRepository projectPath (JStr repoUrl) token)))).*1
        !! n = Some command
      ↔ directory_ready w projectPath = true
        ∧ ∀ (m : nat) earlier,
            (m < n)%nat → git_script repoUrl token !! m = Some earlier →
            earlier ≠ git_commit →
            run_command w earlier projectPath = true.
Proof.
  destruct (directory_ready w projectPath) eqn:Hready.
  - destruct (run_setup_ready w cwd projectPath (JStr repoUrl) token Hready)
      as (_ & _ & -> & _).
    rewrite fst_in_directory. unfold git_commands_run. split.
    + destruct (forallb _ _) eqn:Hall.
      * by rewrite run_script_all.
      * rewrite app_nil_r.
        etrans; [apply run_script_prefix|]. by exists [git_commit; git_push].
    + intros n command Hn. unfold git_script in *.
      rewrite run_script_forgiving;
        [|done|done|done|unfold git_remote_add, git_commit; by intros [=]|done].
      rewrite run_script_lookup. split.
      * intros [_ Hbefore]. split; [done|]. intros m earlier Hm Hearlier Hne.
        specialize (Hbefore m earlier Hm Hearlier).
        by apply orb_true_iff in Hbefore as [?|?%bool_decide_eq_true].
      * intros [_ Hbefore]. split; [done|]. intros m earlier Hm Hearlier.
        destruct (decide (earlier = git_commit)) as [->|Hne].
        -- by rewrite bool_decide_eq_true_2, orb_true_r.
        -- by rewrite (Hbefore m earlier).
  - destruct (run_setup_not_ready w cwd projectPath (JStr repoUrl) token Hready)
      as (_ & -> & _).
    split; [apply prefix_nil|]. intros n command _. split; [done|by intros [[=] _]].
Qed.

Lemma string_app_assoc (a b c : string) : (a +:+ b) +:+ c = a +:+ b +:+ c.
Proof.
  induction a as [|x a IH]; [done|].
  change (String x ((a +:+ b) +:+ c) = String x (a +:+ b +:+ c)). by f_equal.
Qed.

Lemma substitution_plain (matched before rest literal tail : string) :
  no_dollar literal = true →
  substitution matched before rest (literal +:+ tail)
  = literal +:+ substitution matched before rest tail.
Proof.
  induction literal as [|c literal IH]; [done|].
  change (String c literal +:+ tail) with (String c (literal +:+ tail)).
  cbn [no_dollar substitution]. intros [Hc Hlit]%andb_true_iff.
  apply negb_true_iff in Hc. rewrite Hc, IH by done. done.
Qed.

Lemma String_replace_https (rest token : string) :
  no_dollar token = true →
  String_replace ("https://" +:+ rest) "https://" ("https://" +:+ token +:+ "@")
  = "https://" +:+ token +:+ "@" +:+ rest.
Proof.
  intros Htoken. unfold String_replace.
  assert (split_first "https://" ("https://" +:+ rest) = Some ("", rest)) as ->
    by (destruct rest; reflexivity).
  change ("https://" +:+ token +:+ "@") with ("https://" +:+ (token +:+ "@")).
  rewrite (substitution_plain _ _ _ "https://") by done.
  rewrite substitution_plain by done. simpl.
  by rewrite !string_app_assoc.
Qed.

(** X14: when [repoUrl] begins with "https://" and the token has no dollar
    sign, the remote that [setupGitRepository] adds is the URL with the token
    and "@" put after "https://": the token is written on the command line,
    and so into the repository's configuration. *)
Theorem token_is_written_into_the_remote_url (w : World)
    (cwd projectPath rest token : string) :
  no_dollar token = true →
  directory_ready w projectPath = true →
  forallb (λ command, run_command w command projectPath)
    ["git init"; git_config_name; git_config_email] = true →
  ("git remote add origin https://" +:+ token +:+ "@" +:+ rest, projectPath)
    ∈ commands (events (run_proc w cwd
                          (setupGitRepository projectPath (JStr ("https://" +:+ rest))
                             token))).
Proof.
  intros Htoken Hready Hok.
  destruct (run_setup_ready w cwd projectPath (JStr ("https://" +:+ rest)) token Hready)
    as (_ & _ & -> & _).
  apply list_elem_of_fmap. eexists. split; [reflexivity|].
  unfold git_commands_run, git_remote_add. rewrite String_replace_https by done.
  apply elem_of_app. left. cbn [forallb] in Hok.
  apply andb_true_iff in Hok as [H1 [H2 [H3 _]%andb_true_iff]%andb_true_iff].
  cbn [run_script]. rewrite H1, H2, H3. do 3 right. left.
Qed.

Lemma token_is_written_into_the_remote_url_witness :
  ("git remote add origin https://" +:+ "ghp_example" +:+ "@" +:+ "github.com/me/app.git",
   "/home/me/app")
    ∈ commands (events (run_proc (github_world (Rejected None) (Rejected None)) "/home/me"
                          (setupGitRepository "/home/me/app"
                             (JStr ("https://" +:+ "github.com/me/app.git"))
                             "ghp_example"))).
Proof.
  apply (token_is_written_into_the_remote_url
           (github_world (Rejected None) (Rejected None)) "/home/me" "/home/me/app"
           "github.com/me/app.git" "ghp_example"); by_evaluation.
Defined.

(** ** [eggsNextSetup] *)

(** The block about the repository runs no command and stays where it is;
    it returns or exits, and never throws. *)
Lemma run_createRepoIfConfirmed (w : World) (cwd projectDirName : string)
    (createRepo : option bool) :
  commands (events (run_proc w cwd (createRepoIfConfirmed projectDirName createRepo))) = []
  ∧ final_cwd (run_proc w cwd (createRepoIfConfirmed projectDirName createRepo)) = cwd
  ∧ (∀ e, outcome (run_proc w cwd (createRepoIfConfirmed projectDirName createRepo))
          ≠ Threw e).
Proof.
  unfold createRepoIfConfirmed. destruct (confirmed createRepo); [|done].
  rewrite run_proc_bind. unfold getGitHubToken.
  cbn [pbind run_proc handle console after outcome events final_cwd].
  destruct (getenv w "GITHUB_TOKEN") as [token|]; [|done].
  destruct (truthy (JStr token)); cbn [negb run_proc after outcome events final_cwd];
    [|done].
  rewrite run_proc_try, run_proc_bind, run_createGitRepo, run_checkIfRepoExists.
  unfold prepend. cbn [outcome events final_cwd].
  destruct (repo_found w projectDirName token); cbn [outcome events final_cwd].
  - run_norm. split_and!; [|done|done].
    by destruct (repo_check _ _).
  - destruct (created _) as [v|e]; run_norm; (split_and!; [|done|done]);
      by destruct (repo_check _ _).
Qed.

Lemma prefix_of_fmap {A B : Type} (f : A -> B) (l1 l2 : list A) :
  l1 `prefix_of` l2 → f <$> l1 `prefix_of` f <$> l2.
Proof. intros [k ->]. exists (f <$> k). by rewrite fmap_app. Qed.

Lemma setup_commands_cases (w : World) (cwd fullPath : string) (repoUrl : JsVal)
    (token : string) :
  ∃ s, (commands (events (run_proc w cwd (setupGitRepository fullPath repoUrl token))))
       `prefix_of` ((λ command, (command, fullPath)) <$> git_script s token)
       ∧ (∀ s', repoUrl = JStr s' → s = s').
Proof.
  destruct (directory_ready w fullPath) eqn:Hready.
  - destruct (run_setup_ready w cwd fullPath repoUrl token Hready) as (_ & _ & -> & _).
    assert (∀ s, repoUrl = JStr s →
      git_commands_run (λ command, run_command w command fullPath) (JStr s) token
      `prefix_of` git_script s token) as Hstring.
    { intros s _. unfold git_commands_run. destruct (forallb _ _) eqn:Hall.
      - by rewrite run_script_all.
      - rewrite app_nil_r. etrans; [apply run_script_prefix|].
        by exists [git_commit; git_push]. }
    assert (∀ s, run_script (λ command, run_command w command fullPath)
                   ["git init"; git_config_name; git_config_email]
                 `prefix_of` git_script s token) as Hother.
    { intros s. etrans; [apply run_script_prefix|].
      by exists [git_remote_add s token; "git add ."; git_commit; git_push]. }
    destruct repoUrl as [| |b|q|s|l|l]; cbn [git_commands_run];
      try (exists ""; split; [apply prefix_of_fmap, Hother | done]).
    exists s. split; [by apply prefix_of_fmap, Hstring | by intros s' [= ->]].
  - destruct (run_setup_not_ready w cwd fullPath repoUrl token Hready) as (_ & -> & _).
    destruct repoUrl as [| |b|q|s|l|l];
      try (exists ""; split; [apply prefix_nil | done]).
    exists s. split; [apply prefix_nil | by intros s' [= ->]].
Qed.

Lemma setup_quiet (w : World) (cwd fullPath : string) (repoUrl : JsVal) (token : string) :
  http_requests (events (run_proc w cwd (setupGitRepository fullPath repoUrl token))) = []
  ∧ env_reads (events (run_proc w cwd (setupGitRepository fullPath repoUrl token))) = []
  ∧ ∀ code, outcome (run_proc w cwd (setupGitRepository fullPath repoUrl token))
            ≠ Exited code.
Proof.
  destruct (directory_ready w fullPath) eqn:Hready.
  - by destruct (run_setup_ready w cwd fullPath repoUrl token Hready)
      as (-> & _ & _ & -> & ->).
  - by destruct (run_setup_not_ready w cwd fullPath repoUrl token Hready)
      as (-> & _ & -> & ->).
Qed.

Lemma run_not_awaited (w : World) (cwd : string) (p : Proc unit) :
  (∀ code, outcome (run_proc w cwd p) ≠ Exited code) →
  outcome (run_proc w cwd (not_awaited p)) = Returned tt
  ∧ commands (events (run_proc w cwd (not_awaited p))) = commands (events (run_proc w cwd p))
  ∧ http_requests (events (run_proc w cwd (not_awaited p)))
    = http_requests (events (run_proc w cwd p))
  ∧ env_reads (events (run_proc w cwd (not_awaited p)))
    = env_reads (events (run_proc w cwd p)).
Proof.
  intros Hexit. unfold not_awaited. rewrite run_proc_try.
  destruct (run_proc w cwd p) as [[[]|e|code] t d]; cbn [outcome events final_cwd].
  - done.
  - run_norm. by rewrite commands_app, http_requests_app, env_reads_app, !app_nil_r.
  - by destruct (Hexit code).
Qed.

(** The chain: what it runs and how it ends, given the resolver's result. *)
Lemma run_chainedRules (w : World) (cwd V projectDirName workingDir fullPath : string)
    (repoUrl : JsVal) (token : string) (r : ResolutionResult) (t : list Event) :
  run (registry_of w) (resolveDependencies V) = (Normal r, t) →
  commands (events (run_proc w cwd
     (chainedRules V projectDirName workingDir fullPath repoUrl token)))
  = (ng_new_line projectDirName V, workingDir)
    :: (if run_command w (ng_new_line projectDirName V) workingDir
        then (npm_install_line r, cwd)
             :: (if run_command w (npm_install_line r) cwd && truthy repoUrl
                 then commands (events (run_proc w cwd
                                          (setupGitRepository fullPath repoUrl token)))
                 else [])
        else [])
  ∧ outcome (run_proc w cwd
       (chainedRules V projectDirName workingDir fullPath repoUrl token))
    = (if run_command w (ng_new_line projectDirName V) workingDir
       then if run_command w (npm_install_line r) cwd
            then Returned tt else Threw (ExecError (npm_install_line r))
       else Threw (ExecError (ng_new_line projectDirName V)))
  ∧ http_requests (events (run_proc w cwd
       (chainedRules V projectDirName workingDir fullPath repoUrl token)))
    = (if run_command w (ng_new_line projectDirName V) workingDir
       then get_request <$> requests_of t else [])
  ∧ env_reads (events (run_proc w cwd
       (chainedRules V projectDirName workingDir fullPath repoUrl token))) = [].
Proof.
  intros Hrun. unfold chainedRules.
  rewrite run_proc_bind, run_runCommand.
  change ("npx" +:+ " " +:+ join_spaces (ng_new_args projectDirName V))
    with (ng_new_line projectDirName V).
  cbn [from_option id].
  destruct (run_command w (ng_new_line projectDirName V) workingDir);
    cbn [outcome events final_cwd]; [|done].
  rewrite run_proc_bind, (run_installDependenciesRule w cwd V r t Hrun), run_runCommand.
  change ("npm" +:+ " " +:+ join_spaces ("install" :: packages r
            ++ (if forceInstall r then ["--legacy-peer-deps"] else [])))
    with (npm_install_line r).
  cbn [from_option id].
  destruct (run_command w (npm_install_line r) cwd); unfold prepend;
    cbn [outcome events final_cwd andb].
  - destruct (truthy repoUrl).
    + destruct (setup_quiet w cwd fullPath repoUrl token) as (Hhttp & Henv & Hexit).
      destruct (run_not_awaited w cwd (setupGitRepository fullPath repoUrl token) Hexit)
        as (-> & Hc & Hh & He).
      rewrite !commands_app, !http_requests_app, !env_reads_app, Hc, Hh, He, Hhttp, Henv.
      rewrite commands_embed, http_requests_embed, env_reads_embed.
      cbn. by rewrite !app_nil_r.
    + rewrite !commands_app, !http_requests_app, !env_reads_app.
      rewrite commands_embed, http_requests_embed, env_reads_embed.
      cbn. by rewrite !app_nil_r.
  - rewrite !commands_app, !http_requests_app, !env_reads_app.
    rewrite commands_embed, http_requests_embed, env_reads_embed.
    cbn. by rewrite !app_nil_r.
Qed.

(** The schematic when no target directory is known: the prompt was
    cancelled. *)
Lemma run_eggsNextSetup_unlocated (w : World) (cwd : string) (path : PathModule)
    (options : Options) :
  full_path_of path w cwd options = None →
  outcome (run_proc w cwd (eggsNextSetup path options)) = Threw (JsThrown TypeError)
  ∧ commands (events (run_proc w cwd (eggsNextSetup path options))) = []
  ∧ http_requests (events (run_proc w cwd (eggsNextSetup path options))) = []
  ∧ env_reads (events (run_proc w cwd (eggsNextSetup path options))) = [].
Proof.
  unfold full_path_of, target_directory_of, eggsNextSetup, askTargetDirectory,
    resolveFullPath.
  destruct (negb (truthy (JStr (default "" (target_directory options))))); [|done].
  run_norm. by destruct (answer_text w "targetDirectory").
Qed.

(** The schematic once the project path is known: quiet preliminaries, the
    block about the repository, then the chain. *)
Lemma run_eggsNextSetup_located (w : World) (cwd : string) (path : PathModule)
    (options : Options) (fullPath : string) :
  full_path_of path w cwd options = Some fullPath →
  ∃ before,
    commands before = [] ∧ http_requests before = [] ∧ env_reads before = []
    ∧ run_proc w cwd (eggsNextSetup path options)
      = prepend before
          (run_proc w cwd
             (doP repoUrl <- createRepoIfConfirmed (path_basename path fullPath)
                               (answer_confirm w "createRepo") ;;
              chainedRules (or_default (angular_version options) "latest")
                (path_basename path fullPath) (path_dirname path fullPath) fullPath
                repoUrl "")).
Proof.
  unfold full_path_of, target_directory_of, eggsNextSetup, askTargetDirectory,
    resolveFullPath.
  pose (ask := Called (PromptText "targetDirectory"
                 "Inserisci la directory di destinazione per il progetto Angular:" "./")
               cwd).
  pose (confirm := Called (PromptConfirm "createRepo"
                     "Vuoi creare anche un repository GitHub per questo progetto?" true)
                   cwd).
  destruct (negb (truthy (JStr (default "" (target_directory options))))).
  - run_norm. destruct (answer_text w "targetDirectory") as [dir|]; [|done].
    destruct (path_isAbsolute path dir); intros [= <-]; run_norm.
    + by exists [ask; confirm].
    + by exists [ask; Called Cwd cwd; confirm].
  - run_norm.
    destruct (path_isAbsolute path (or_default (target_directory options) "./"));
      intros [= <-]; run_norm.
    + by exists [confirm].
    + by exists [Called Cwd cwd; confirm].
Qed.

Lemma repo_block_declined (w : World) (cwd projectDirName : string)
    (createRepo : option bool) :
  confirmed createRepo = false →
  run_proc w cwd (createRepoIfConfirmed projectDirName createRepo)
  = {| outcome := Returned (JStr ""); events := []; final_cwd := cwd |}.
Proof. intros Hno. unfold createRepoIfConfirmed. by rewrite Hno. Qed.

Lemma repo_block_without_token (w : World) (cwd projectDirName : string)
    (createRepo : option bool) :
  confirmed createRepo = true →
  getenv w "GITHUB_TOKEN" = None ∨ getenv w "GITHUB_TOKEN" = Some "" →
  outcome (run_proc w cwd (createRepoIfConfirmed projectDirName createRepo)) = Exited 1
  ∧ http_requests (events (run_proc w cwd (createRepoIfConfirmed projectDirName createRepo)))
    = [].
Proof.
  intros Hyes Htoken. unfold createRepoIfConfirmed, getGitHubToken. rewrite Hyes.
  run_norm. by destruct Htoken as [-> | ->].
Qed.

Lemma repo_block_with_token (w : World) (cwd projectDirName : string)
    (createRepo : option bool) (token : string) :
  confirmed createRepo = true →
  getenv w "GITHUB_TOKEN" = Some token → token ≠ "" →
  outcome (run_proc w cwd (createRepoIfConfirmed projectDirName createRepo))
  = Returned match outcome (run_proc w cwd (createGitRepo projectDirName true token)) with
             | Returned repoUrl => repoUrl
             | _ => JStr ""
             end.
Proof.
  intros Hyes Htoken Hne. unfold createRepoIfConfirmed, getGitHubToken. rewrite Hyes.
  rewrite run_proc_bind. run_norm. rewrite Htoken.
  assert (truthy (JStr token) = true) as -> by (by destruct token).
  run_norm. rewrite run_proc_try, run_proc_bind.
  pose proof (creation_failure_exits_never w cwd projectDirName true token) as Hexit.
  destruct (run_proc w cwd (createGitRepo projectDirName true token))
    as [[v|e|code] t d]; cbn [outcome events final_cwd] in *.
  - by run_norm.
  - by run_norm.
  - by destruct (Hexit code).
Qed.

(** The run of the schematic in terms of its block and its chain. *)
Lemma eggsNextSetup_stages (w : World) (cwd : string) (path : PathModule)
    (options : Options) (fullPath : string) :
  full_path_of path w cwd options = Some fullPath →
  match outcome (run_proc w cwd (createRepoIfConfirmed (path_basename path fullPath)
                                   (answer_confirm w "createRepo"))) with
  | Returned repoUrl =>
      commands (events (run_proc w cwd (eggsNextSetup path options)))
      = commands (events (run_proc w cwd
          (chainedRules (or_default (angular_version options) "latest")
             (path_basename path fullPath) (path_dirname path fullPath) fullPath
             repoUrl "")))
      ∧ outcome (run_proc w cwd (eggsNextSetup path options))
        = outcome (run_proc w cwd
            (chainedRules (or_default (angular_version options) "latest")
               (path_basename path fullPath) (path_dirname path fullPath) fullPath
               repoUrl ""))
      ∧ http_requests (events (run_proc w cwd (eggsNextSetup path options)))
        = http_requests (events (run_proc w cwd
              (createRepoIfConfirmed (path_basename path fullPath)
                 (answer_confirm w "createRepo"))))
          ++ http_requests (events (run_proc w cwd
              (chainedRules (or_default (angular_version options) "latest")
                 (path_basename path fullPath) (path_dirname path fullPath) fullPath
                 repoUrl "")))
      ∧ env_reads (events (run_proc w cwd (eggsNextSetup path options)))
        = env_reads (events (run_proc w cwd
              (createRepoIfConfirmed (path_basename path fullPath)
                 (answer_confirm w "createRepo"))))
  | Threw _ => False
  | Exited code =>
      commands (events (run_proc w cwd (eggsNextSetup path options))) = []
      ∧ outcome (run_proc w cwd (eggsNextSetup path options)) = Exited code
      ∧ http_requests (events (run_proc w cwd (eggsNextSetup path options)))
        = http_requests (events (run_proc w cwd
              (createRepoIfConfirmed (path_basename path fullPath)
                 (answer_confirm w "createRepo"))))
  end.
Proof.
  intros Hpath.
  destruct (run_eggsNextSetup_located w cwd path options fullPath Hpath)
    as (before & Hc & Hh & He & ->).
  rewrite run_proc_bind.
  destruct (run_createRepoIfConfirmed w cwd (path_basename path fullPath)
              (answer_confirm w "createRepo")) as (HBc & HBd & HBt).
  destruct (run_proc w cwd (createRepoIfConfirmed (path_basename path fullPath)
                              (answer_confirm w "createRepo")))
    as [[repoUrl|e|code] tB dB]; cbn [outcome events final_cwd] in *.
  - subst dB. unfold prepend. cbn [outcome events final_cwd].
    rewrite !commands_app, !http_requests_app, !env_reads_app, Hc, Hh, He, HBc.
    destruct (resolveDependencies_normal (registry_of w)
                (or_default (angular_version options) "latest")) as (r & t & Hrun).
    destruct (run_chainedRules w cwd (or_default (angular_version options) "latest")
                (path_basename path fullPath) (path_dirname path fullPath) fullPath
                repoUrl "" r t Hrun) as (_ & _ & _ & ->).
    by rewrite !app_nil_r.
  - by destruct (HBt e).
  - unfold prepend. cbn [outcome events final_cwd].
    by rewrite !commands_app, !http_requests_app, Hc, Hh, HBc.
Qed.

(** X15: whatever the machine and the answers, the commands the schematic
    runs are the first commands, in order, of one script: the generator "npx
    ng new" in the parent of the project directory, "npm install" in the
    directory the process started in, and the git script in the project
    directory, where the remote is added with an empty token: the token read
    from GITHUB_TOKEN is a constant of the block that creates the repository
    and never reaches [setupGitRepository]. Nothing runs when the target
    directory is unknown. *)
Theorem schematic_runs_only_its_script (w : World) (cwd : string) (path : PathModule)
    (options : Options) :
  ∃ r t,
    run (registry_of w) (resolveDependencies (or_default (angular_version options) "latest"))
    = (Normal r, t)
    ∧ match full_path_of path w cwd options with
      | None => commands (events (run_proc w cwd (eggsNextSetup path options))) = []
      | Some fullPath =>
          ∃ repoUrl,
            commands (events (run_proc w cwd (eggsNextSetup path options)))
            `prefix_of` full_script path cwd fullPath
                          (or_default (angular_version options) "latest") r repoUrl
      end.
Proof.
  destruct (resolveDependencies_normal (registry_of w)
              (or_default (angular_version options) "latest")) as (r & t & Hrun).
  exists r, t. split; [done|].
  destruct (full_path_of path w cwd options) as [fullPath|] eqn:Hpath.
  - pose proof (eggsNextSetup_stages w cwd path options fullPath Hpath) as Hstages.
    destruct (outcome (run_proc w cwd (createRepoIfConfirmed _ _)))
      as [repoUrl|e|code]; [|done|].
    + destruct Hstages as (-> & _).
      destruct (run_chainedRules w cwd (or_default (angular_version options) "latest")
                  (path_basename path fullPath) (path_dirname path fullPath) fullPath
                  repoUrl "" r t Hrun) as (-> & _).
      destruct (setup_commands_cases w cwd fullPath repoUrl "") as (s & Hs & _).
      exists s. unfold full_script. apply prefix_cons.
      destruct (run_command w _ (path_dirname path fullPath)); [|apply prefix_nil].
      apply prefix_cons. by destruct (_ && _); [|apply prefix_nil].
    + destruct Hstages as (-> & _). exists "". apply prefix_nil.
  - by destruct (run_eggsNextSetup_unlocated w cwd path options Hpath) as (_ & -> & _).
Qed.

(** With GITHUB_TOKEN set and the repository created, the remote is added
    without the token. *)
Example remote_is_added_without_the_token :
  commands (events (run_proc (github_world (Resolved (JArr [other_repo])) (Resolved app_repo))
                      "/home/me" (eggsNextSetup example_path example_options)))
  = full_script example_path "/home/me" "/home/me/my-angular-app" "17.0.0"
      {| packages := ["@schematics/angular@17.0.0"; "rxjs@latest"; "primeng@latest";
                      "primeflex@latest"; "keycloak-js@latest"; "keycloak-angular@latest"];
         forceInstall := false |}
      "https://github.com/me/app.git"
  ∧ (git_remote_add "https://github.com/me/app.git" "", "/home/me/my-angular-app")
    = ("git remote add origin https://@github.com/me/app.git", "/home/me/my-angular-app").
Proof. split; by_evaluation. Qed.

(** X16: when the user does not confirm the repository, the schematic does
    not read the environment, sends no request other than header-less GET
    requests (those of the resolver), and runs at most the generator and the
    install: no git command. *)
Theorem declined_repository_means_no_github (w : World) (cwd : string)
    (path : PathModule) (options : Options) :
  confirmed (answer_confirm w "createRepo") = false →
  env_reads (events (run_proc w cwd (eggsNextSetup path options))) = []
  ∧ (∀ req, req ∈ http_requests (events (run_proc w cwd (eggsNextSetup path options))) →
            req_method req = "GET" ∧ req_headers req = [])
  ∧ ∃ r t,
      run (registry_of w)
          (resolveDependencies (or_default (angular_version options) "latest"))
      = (Normal r, t)
      ∧ ∀ fullPath, full_path_of path w cwd options = Some fullPath →
          commands (events (run_proc w cwd (eggsNextSetup path options)))
          `prefix_of`
            [(ng_new_line (path_basename path fullPath)
                (or_default (angular_version options) "latest"),
              path_dirname path fullPath);
             (npm_install_line r, cwd)].
Proof.
  intros Hno.
  destruct (resolveDependencies_normal (registry_of w)
              (or_default (angular_version options) "latest")) as (r & t & Hrun).
  destruct (full_path_of path w cwd options) as [fullPath|] eqn:Hpath.
  - pose proof (eggsNextSetup_stages w cwd path options fullPath Hpath) as Hstages.
    rewrite (repo_block_declined w cwd _ _ Hno) in Hstages.
    cbn [outcome events] in Hstages. destruct Hstages as (Hc & _ & Hh & He).
    destruct (run_chainedRules w cwd (or_default (angular_version options) "latest")
                (path_basename path fullPath) (path_dirname path fullPath) fullPath
                (JStr "") "" r t Hrun) as (Hcc & _ & Hch & _).
    rewrite Hc, Hh, He, Hcc, Hch. split_and!; [done| |].
    + cbn [http_requests omap app].
      destruct (run_command w _ (path_dirname path fullPath)); [|by intros ? ?%elem_of_nil].
      by intros req (url & -> & _)%list_elem_of_fmap.
    + exists r, t. split; [done|]. intros ? [= <-]. apply prefix_cons.
      destruct (run_command w _ (path_dirname path fullPath)); [|apply prefix_nil].
      apply prefix_cons. cbn [truthy String.eqb negb]. by rewrite andb_false_r.
  - destruct (run_eggsNextSetup_unlocated w cwd path options Hpath) as (_ & _ & -> & ->).
    split_and!; [done|by intros ? ?%elem_of_nil|].
    by exists r, t.
Qed.

Lemma declined_repository_means_no_github_witness :
  env_reads (events (run_proc (declining (github_world (Rejected None) (Rejected None)))
                       "/home/me" (eggsNextSetup example_path example_options))) = [].
Proof.
  apply (declined_repository_means_no_github
           (declining (github_world (Rejected None) (Rejected None)))
           "/home/me" example_path example_options).
  reflexivity.
Defined.

(** X17: when the user confirms the repository and GITHUB_TOKEN is unset or
    empty, the schematic exits the process with status 1 before anything is
    generated: no command has run and no request was sent. *)
Theorem missing_token_exits_before_scaffolding (w : World) (cwd : string)
    (path : PathModule) (options : Options) (fullPath : string) :
  full_path_of path w cwd options = Some fullPath →
  confirmed (answer_confirm w "createRepo") = true →
  getenv w "GITHUB_TOKEN" = None ∨ getenv w "GITHUB_TOKEN" = Some "" →
  outcome (run_proc w cwd (eggsNextSetup path options)) = Exited 1
  ∧ commands (events (run_proc w cwd (eggsNextSetup path options))) = []
  ∧ http_requests (events (run_proc w cwd (eggsNextSetup path options))) = [].
Proof.
  intros Hpath Hyes Htoken.
  pose proof (eggsNextSetup_stages w cwd path options fullPath Hpath) as Hstages.
  destruct (repo_block_without_token w cwd (path_basename path fullPath) _ Hyes Htoken)
    as (Hout & Hhttp).
  rewrite Hout in Hstages. destruct Hstages as (-> & -> & ->). by rewrite Hhttp.
Qed.

Lemma missing_token_exits_before_scaffolding_witness :
  outcome (run_proc (without_token (github_world (Rejected None) (Rejected None)))
             "/home/me" (eggsNextSetup example_path example_options)) = Exited 1
  ∧ commands (events (run_proc (without_token (github_world (Rejected None) (Rejected None)))
                        "/home/me" (eggsNextSetup example_path example_options))) = []
  ∧ http_requests
      (events (run_proc (without_token (github_world (Rejected None) (Rejected None)))
                 "/home/me" (eggsNextSetup example_path example_options))) = [].
Proof.
  apply (missing_token_exits_before_scaffolding
           (without_token (github_world (Rejected None) (Rejected None)))
           "/home/me" example_path example_options "/home/me/my-angular-app").
  - reflexivity.
  - reflexivity.
  - left. reflexivity.
Defined.

(** X18: when [createGitRepo] throws, the schematic goes on without a
    repository: the generator is still run, and no git command is. *)
Theorem failed_creation_is_survived (w : World) (cwd : string) (path : PathModule)
    (options : Options) (fullPath token : string) (error : Thrown) :
  full_path_of path w cwd options = Some fullPath →
  confirmed (answer_confirm w "createRepo") = true →
  getenv w "GITHUB_TOKEN" = Some token → token ≠ "" →
  outcome (run_proc w cwd (createGitRepo (path_basename path fullPath) true token))
  = Threw error →
  ∃ r t,
    run (registry_of w) (resolveDependencies (or_default (angular_version options) "latest"))
    = (Normal r, t)
    ∧ head (commands (events (run_proc w cwd (eggsNextSetup path options))))
      = Some (ng_new_line (path_basename path fullPath)
                (or_default (angular_version options) "latest"),
              path_dirname path fullPath)
    ∧ commands (events (run_proc w cwd (eggsNextSetup path options)))
      `prefix_of`
        [(ng_new_line (path_basename path fullPath)
            (or_default (angular_version options) "latest"),
          path_dirname path fullPath);
         (npm_install_line r, cwd)].
Proof.
  intros Hpath Hyes Htoken Hne Hthrew.
  destruct (resolveDependencies_normal (registry_of w)
              (or_default (angular_version options) "latest")) as (r & t & Hrun).
  exists r, t. split; [done|].
  pose proof (eggsNextSetup_stages w cwd path options fullPath Hpath) as Hstages.
  rewrite (repo_block_with_token w cwd _ _ token Hyes Htoken Hne), Hthrew in Hstages.
  destruct Hstages as (-> & _).
  destruct (run_chainedRules w cwd (or_default (angular_version options) "latest")
              (path_basename path fullPath) (path_dirname path fullPath) fullPath
              (JStr "") "" r t Hrun) as (-> & _).
  split; [done|]. apply prefix_cons.
  destruct (run_command w _ (path_dirname path fullPath)); [|apply prefix_nil].
  apply prefix_cons. cbn [truthy String.eqb negb]. by rewrite andb_false_r.
Qed.

Lemma failed_creation_is_survived_witness :
  ∃ r t,
    run (registry_of (github_world (Rejected None) (Rejected (Some 422%Z))))
        (resolveDependencies "17.0.0") = (Normal r, t)
    ∧ head (commands (events (run_proc (github_world (Rejected None) (Rejected (Some 422%Z)))
                                "/home/me" (eggsNextSetup example_path example_options))))
      = Some (ng_new_line "my-angular-app" "17.0.0", "/home/me")
    ∧ commands (events (run_proc (github_world (Rejected None) (Rejected (Some 422%Z)))
                          "/home/me" (eggsNextSetup example_path example_options)))
      `prefix_of` [(ng_new_line "my-angular-app" "17.0.0", "/home/me");
                   (npm_install_line r, "/home/me")].
Proof.
  apply (failed_creation_is_survived
           (github_world (Rejected None) (Rejected (Some 422%Z)))
           "/home/me" example_path example_options "/home/me/my-angular-app"
           "ghp_example" (AxiosError (Some 422%Z))).
  - reflexivity.
  - reflexivity.
  - reflexivity.
  - discriminate.
  - by_evaluation.
Defined.

(** X19: when the generator fails, the schematic throws its error and runs
    nothing else: no install and no git command. *)
Theorem failed_generator_stops_the_schematic (w : World) (cwd : string)
    (path : PathModule) (options : Options) (fullPath : string) :
  full_path_of path w cwd options = Some fullPath →
  (∀ code, outcome (run_proc w cwd (createRepoIfConfirmed (path_basename path fullPath)
                                      (answer_confirm w "createRepo"))) ≠ Exited code) →
  run_command w (ng_new_line (path_basename path fullPath)
                   (or_default (angular_version options) "latest"))
    (path_dirname path fullPath) = false →
  outcome (run_proc w cwd (eggsNextSetup path options))
  = Threw (ExecError (ng_new_line (path_basename path fullPath)
                        (or_default (angular_version options) "latest")))
  ∧ commands (events (run_proc w cwd (eggsNextSetup path options)))
    = [(ng_new_line (path_basename path fullPath)
          (or_default (angular_version options) "latest"),
        path_dirname path fullPath)].
Proof.
  intros Hpath Hexit Hfail.
  destruct (resolveDependencies_normal (registry_of w)
              (or_default (angular_version options) "latest")) as (r & t & Hrun).
  pose proof (eggsNextSetup_stages w cwd path options fullPath Hpath) as Hstages.
  destruct (outcome (run_proc w cwd (createRepoIfConfirmed _ _)))
    as [repoUrl|e|code]; [|done|by destruct (Hexit code)].
  destruct Hstages as (-> & -> & _).
  destruct (run_chainedRules w cwd (or_default (angular_version options) "latest")
              (path_basename path fullPath) (path_dirname path fullPath) fullPath
              repoUrl "" r t Hrun) as (-> & -> & _).
  by rewrite Hfail.
Qed.

Lemma failed_generator_stops_the_schematic_witness :
  outcome (run_proc (failing_generator (github_world (Rejected None) (Rejected None)))
             "/home/me" (eggsNextSetup example_path example_options))
  = Threw (ExecError (ng_new_line "my-angular-app" "17.0.0"))
  ∧ commands (events (run_proc
                        (failing_generator (github_world (Rejected None) (Rejected None)))
                        "/home/me" (eggsNextSetup example_path example_options)))
    = [(ng_new_line "my-angular-app" "17.0.0", "/home/me")].
Proof.
  apply (failed_generator_stops_the_schematic
           (failing_generator (github_world (Rejected None) (Rejected None)))
           "/home/me" example_path example_options "/home/me/my-angular-app").
  - reflexivity.
  - intros code. vm_compute. discriminate.
  - reflexivity.
Defined.

(** ** More about the resolver *)

(** X20: [getPeerDependencies] always completes normally after its one
    request, with a value that is neither [null] nor [undefined], so that
    [Object.entries] on it cannot throw: the empty object when the data is not
    an object, the empty object after a warning when the data is [null], and
    otherwise [data.peerDependencies || {}]. *)
Theorem getPeerDependencies_total (net : Registry) (packageName version : string) :
  ∃ peerDeps t,
    run net (getPeerDependencies packageName version) = (Normal peerDeps, t)
    ∧ nullish peerDeps = false
    ∧ requests_of t = [version_url packageName version]
    ∧ ∀ data, net (version_url packageName version) = FetchOk data →
        (typeof data ≠ "object" →
         peerDeps = JObj [] ∧ t = [Requested (version_url packageName version)])
        ∧ (data = JNull →
           peerDeps = JObj []
           ∧ t = [Requested (version_url packageName version);
                  Warned ("Could not fetch peer dependencies for " +:+ packageName
                          +:+ "@" +:+ version)])
        ∧ (typeof data = "object" → data ≠ JNull →
           peerDeps = js_or (read_prop data "peerDependencies") (JObj [])
           ∧ t = [Requested (version_url packageName version)]).
Proof.
  rewrite run_getPeerDependencies. eexists _, _. split; [done|].
  split; [apply peer_dependencies_not_nullish|]. split.
  - cbn. by destruct (peer_read_throws _).
  - intros data ->. cbn [peer_dependencies_of peer_read_throws].
    destruct data; split_and!; try done; by intros [].
Qed.

Lemma Set_add_idem (s : JsSet) (v : string) : Set_add (Set_add s v) v = Set_add s v.
Proof.
  unfold Set_add at 1. rewrite decide_True; [done|].
  apply elem_of_Set_add. by right.
Qed.

Lemma Map_set_set (m : JsMap) (k : string) (s1 s2 : JsSet) :
  Map_set (Map_set m k s1) k s2 = Map_set m k s2.
Proof.
  induction m as [|[k' s'] m IH]; simpl.
  - by rewrite decide_True.
  - case_decide; simpl; [by rewrite decide_True|]. rewrite decide_False by done.
    by rewrite IH.
Qed.

Lemma Map_has_set (m : JsMap) (k : string) (s : JsSet) : Map_has (Map_set m k s) k = true.
Proof. unfold Map_has. by rewrite Map_get_set_eq. Qed.

(** X21: recording the same peer-dependency entry a second time changes
    nothing: the sets of the conflict map hold each version spec once. *)
Theorem recording_twice_is_recording_once (m : JsMap) (entry : string * JsVal) :
  recordPeerDependency (recordPeerDependency m entry) entry = recordPeerDependency m entry.
Proof.
  destruct entry as [depName depVersion].
  assert (∀ m', Map_has m' depName = true →
                (if negb (Map_has m' depName) then Map_set m' depName [] else m') = m')
    as Hregistered by (by intros m' ->).
  assert (Map_has (if negb (Map_has m depName) then Map_set m depName [] else m) depName
          = true) as Hhas.
  { destruct (Map_has m depName) eqn:Hm; [done|]. apply Map_has_set. }
  unfold recordPeerDependency at 2.
  set (m1 := if negb (Map_has m depName) then Map_set m depName [] else m) in *.
  destruct depVersion as [| |b|q|s|l|l];
    try (unfold recordPeerDependency; by rewrite Hregistered).
  destruct (Map_get m1 depName) as [versions|] eqn:Hget.
  - unfold recordPeerDependency.
    rewrite Hregistered by apply Map_has_set.
    rewrite Map_get_set_eq, Set_add_idem, Map_set_set.
    fold m1. by rewrite Hget.
  - unfold Map_has in Hhas. by rewrite Hget in Hhas.
Qed.

(** X22: [forceInstall] does not depend on the order of the requests: two
    batches with the same packages in another order give the same flag. *)
Theorem forceInstall_is_order_independent (net : Registry)
    (requests requests' : list PackageRequest) (V : string) :
  requests ≡ₚ requests' →
  ∃ r r' t t',
    run net (resolveDependenciesOf requests V) = (Normal r, t)
    ∧ run net (resolveDependenciesOf requests' V) = (Normal r', t')
    ∧ forceInstall r = forceInstall r'.
Proof.
  intros Hperm.
  destruct (run_resolveDependenciesOf net requests V) as (t & Hrun & _).
  destruct (run_resolveDependenciesOf net requests' V) as (t' & Hrun' & _).
  eexists _, _, t, t'. split; [done|]. split; [done|]. cbn [forceInstall].
  apply eq_true_iff_eq.
  rewrite !has_conflict_iff by apply foldl_recordPeerDependency_wf, Map_wf_empty.
  assert (∀ k spec,
    recorded (foldl recordPeerDependency [] (mjoin (peer_entries net V <$> requests))) k spec
    ↔ recorded (foldl recordPeerDependency [] (mjoin (peer_entries net V <$> requests')))
        k spec) as Hrec.
  { intros k spec. rewrite !recorded_foldl. apply or_iff_compat_l.
    rewrite !list_elem_of_join. split; intros (l & Hin & Hl); exists l; (split; [done|]).
    - by rewrite <- Hperm.
    - by rewrite Hperm. }
  split; intros (k & s1 & s2 & Hne & H1 & H2); exists k, s1, s2;
    (split; [done|]); split; by apply Hrec.
Qed.

Lemma forceInstall_is_order_independent_witness :
  ∃ r r' t t',
    run (zone_registry "~0.14.0") (resolveDependenciesOf dependenciesToCheck "17.0.0")
    = (Normal r, t)
    ∧ run (zone_registry "~0.14.0")
          (resolveDependenciesOf (reverse dependenciesToCheck) "17.0.0")
      = (Normal r', t')
    ∧ forceInstall r = forceInstall r'.
Proof.
  apply (forceInstall_is_order_independent (zone_registry "~0.14.0")
           dependenciesToCheck (reverse dependenciesToCheck) "17.0.0").
  symmetry. apply reverse_Permutation.
Defined.
